(** * qwe: the tracked-files registry, the directory scan, group
      initialization and diff

    A shallow embedding of the Go packages [tracker] and [display] of the
    qwe version-control tool, with the properties their specification states
    about them.  The packages [compressor], [initializer] and [diff] are used
    through their tests only; they are modelled from the specification, and
    the definitions that are say so.

    Go strings are byte strings: they are modelled as [string] (a list of
    8-bit characters), [len] as [String.length] and the slice [s[:n]] as
    [substring 0 n s].  Go maps are finite maps ([gmap]), a pointer is an
    [option] whose [None] is nil, and a function that reads or writes files
    is a computation over the file system. *)

From Stdlib Require Import String Ascii List Lia.
From stdpp Require Import base option list sorting gmap strings.
Import ListNotations.

Local Open Scope string_scope.
Local Open Scope list_scope.
Local Open Scope stdpp_scope.
Set Warnings "-register-all".

(** ** Errors and results

    A Go [error] value.  The constructors are the errors that the modelled
    code can produce or inspect: path errors of package [os], the sentinel
    values [fs.SkipDir] and [fs.SkipAll], the sentinels of package
    [qwerror], and [fmt.Errorf("msg: %w", err)] wrapping. *)

Inductive error : Type :=
  | ErrNotExist (path : string)     (* *fs.PathError, os.IsNotExist holds *)
  | ErrPermission (path : string)   (* *fs.PathError, os.IsPermission holds *)
  | ErrIO (path : string)           (* any other *fs.PathError *)
  | ErrHeader                       (* compressor: input is not compressed data *)
  | ErrSyntax                       (* encoding/json: malformed or ill-typed text *)
  | ErrNilDeref                     (* run-time panic: nil pointer dereference *)
  | SkipDir                         (* fs.SkipDir *)
  | SkipAll                         (* fs.SkipAll *)
  | Errorf (msg : string) (err : error)
  | RepoNotFound
  | RepoAlreadyInit
  | GrpAlreadyTracked
  | FileNotTracked
  | ArgumentMismatch                (* diff: one version id given, the other not *)
  | VersionNotFound
  | ObjectNotFound.

#[global] Instance error_eq_dec : EqDecision error.
Proof. solve_decision. Defined.

(** A Go result pair [(value, error)]: [Ok v] is [(v, nil)]. *)
Inductive Result (A : Type) : Type :=
  | Ok (a : A)
  | Err (e : error).
Arguments Ok {A} a.
Arguments Err {A} e.

Definition os_IsNotExist (err : error) : bool :=
  match err with ErrNotExist _ => true | _ => false end.

Definition os_IsPermission (err : error) : bool :=
  match err with ErrPermission _ => true | _ => false end.

(** ** The file system and the effects of package os

    The files of the working tree are a finite map from path to content.
    [locked] is the set of paths the process may not write (opening them
    for writing, or renaming onto them, fails with a permission error); it
    keeps the error branches of the source reachable.  [hist] is the
    chronological list of the mutating system calls performed so far, each
    with the file map it left behind: these are the observable states of
    the disk. *)

Inductive syscall : Type :=
  | SysTrunc (path : string)                (* open(O_CREATE|O_TRUNC) *)
  | SysWrite (path : string) (data : string)
  | SysRename (oldpath newpath : string)
  | SysCompress (path : string)
  | SysDecompress (path : string).

#[global] Instance syscall_eq_dec : EqDecision syscall.
Proof. solve_decision. Defined.

Record World : Type := mkWorld {
  files : gmap string string;
  locked : gset string;
  hist : list (syscall * gmap string string)
}.

(** Computations that read and write the world and may fail. *)
Definition M (A : Type) : Type := World -> World * Result A.

#[global] Instance M_ret : MRet M := fun A a w => (w, Ok a).
#[global] Instance M_bind : MBind M := fun A B f m w =>
  match m w with
  | (w', Ok a) => f a w'
  | (w', Err e) => (w', Err e)
  end.

Definition throw {A : Type} (e : error) : M A := fun w => (w, Err e).

(** Running a call and keeping its error as a value:
    [v, err := f()] followed by an inspection of [err]. *)
Definition attempt {A : Type} (m : M A) : M (Result A) := fun w =>
  match m w with
  | (w', r) => (w', Ok r)
  end.

(** [if err != nil { return fmt.Errorf("msg: %w", err) }] *)
Definition wrap {A : Type} (msg : string) (m : M A) : M A := fun w =>
  match m w with
  | (w', Ok a) => (w', Ok a)
  | (w', Err e) => (w', Err (Errorf msg e))
  end.

(** One mutating system call: the disk becomes [fs]. *)
Definition commit (c : syscall) (fs : gmap string string) : M unit := fun w =>
  (mkWorld fs (locked w) (hist w ++ [(c, fs)]), Ok tt).

(** The system calls a computation performs from [w], with the disk states
    they leave, in order. *)
Definition trace {A : Type} (m : M A) (w : World) : list (syscall * gmap string string) :=
  hist (m (mkWorld (files w) (locked w) [])).1.

Definition os_Stat (name : string) : M unit := fun w =>
  match files w !! name with
  | Some _ => (w, Ok tt)
  | None => (w, Err (ErrNotExist name))
  end.

Definition os_ReadFile (name : string) : M string := fun w =>
  match files w !! name with
  | Some data => (w, Ok data)
  | None => (w, Err (ErrNotExist name))
  end.

(** [os.WriteFile]: the file is created or truncated, then the data is
    written; these are separate system calls, so the truncated file is an
    observable state.  The permission bits [perm] are not tracked. *)
Definition os_WriteFile (name data : string) (perm : N) : M unit := fun w =>
  if decide (name ∈ locked w) then (w, Err (ErrPermission name))
  else (commit (SysTrunc name) (<[name := EmptyString]> (files w)) ;;
        commit (SysWrite name data) (<[name := data]> (files w))) w.

(** [os.Rename]: one atomic system call. *)
Definition os_Rename (oldpath newpath : string) : M unit := fun w =>
  match files w !! oldpath with
  | None => (w, Err (ErrNotExist oldpath))
  | Some data =>
      if decide (newpath ∈ locked w) then (w, Err (ErrPermission newpath))
      else commit (SysRename oldpath newpath)
                  (<[newpath := data]> (delete oldpath (files w))) w
  end.

(** Replacing the content of a file in place, as one system call [c]. *)
Definition rewrite_file (c : syscall) (path data : string) : M unit := fun w =>
  if decide (path ∈ locked w) then (w, Err (ErrPermission path))
  else commit c (<[path := data]> (files w)) w.

(** [filepath.Join] of two clean path elements (the cleaning that
    [filepath.Join] applies to other inputs is not modelled). *)
Definition filepath_Join (dir name : string) : string := dir +:+ "/" +:+ name.

(** ** Package compressor *)

(** The byte-level codec behind the compressor: [gunzip] recovers what [gz]
    packed, and may reject bytes that are not packed data. *)
Class Compressor : Type := {
  gz : string -> string;
  gunzip : string -> option string;
  gunzip_gz : forall data, gunzip (gz data) = Some data
}.

Section Compress.
Context `{!Compressor}.

(** Modelled from the spec: package compressor is not among the sources.
    Section 6 gives its contract, [compress(path)] and [decompress(path)]
    rewrite the file in place and are not idempotent; the test
    TestLoadTrackedFilesFromFile_NonExistentFile records that decompressing
    a path that does not exist fails.  The rewrite is one step here. *)
Definition CompressFile (path : string) : M unit :=
  data ← os_ReadFile path;
  rewrite_file (SysCompress path) path (gz data).

(** Modelled from the spec: see [CompressFile]. *)
Definition DecompressFile (path : string) : M unit :=
  data ← os_ReadFile path;
  match gunzip data with
  | None => throw ErrHeader
  | Some plain => rewrite_file (SysDecompress path) path plain
  end.

End Compress.

(** ** Package display *)

Module Display.

(** Constants of display/tracked-files.go. *)
Definition MaxCommitMessageLen : nat := 60.
Definition CommitMessageTruncLen : nat := 57.

(** [func truncateMsg(msg string) string] *)
Definition truncateMsg (msg : string) : string :=
  if (MaxCommitMessageLen <? String.length msg)%nat
  then substring 0 CommitMessageTruncLen msg +:+ "..."
  else msg.

End Display.


(** ** Directory trees and filepath.WalkDir

    What [os.Lstat] and [os.ReadDir] report below a root: a file, or a
    directory with the entries [os.ReadDir] returns (sorted by name) and the
    error it returns with them, if any. *)

Inductive DirEntry : Type :=
  | File (name : string)
  | Dir (name : string) (readErr : option error) (entries : list DirEntry).

Definition Name (d : DirEntry) : string :=
  match d with File name => name | Dir name _ _ => name end.

Definition IsDir (d : DirEntry) : bool :=
  match d with File _ => false | Dir _ _ _ => true end.

Section DirEntryInduction.
Variable P : DirEntry -> Prop.
Hypothesis P_File : forall name, P (File name).
Hypothesis P_Dir :
  forall name readErr dirs, Forall P dirs -> P (Dir name readErr dirs).

(** Induction over a tree, with the hypothesis for all entries of a
    directory. *)
Fixpoint DirEntry_tree_ind (d : DirEntry) : P d :=
  match d with
  | File name => P_File name
  | Dir name readErr dirs =>
      P_Dir name readErr dirs
        ((fix all (l : list DirEntry) : Forall P l :=
            match l with
            | [] => Forall_nil_2 P
            | d1 :: rest => Forall_cons_2 P d1 rest (DirEntry_tree_ind d1) (all rest)
            end) dirs)
  end.

End DirEntryInduction.

(** One invocation of the walk callback: the entry [v_entry] was presented
    under [v_path]; [v_above] lists the names of the directories of the walk
    that contain it, outermost first. *)
Record Visit : Type := mkVisit {
  v_above : list string;
  v_path : string;
  v_entry : option DirEntry
}.

Section WalkDir.
Context {S : Type}.

(** [fs.WalkDirFunc], a closure over a state of type [S]. *)
Definition WalkDirFunc : Type :=
  string -> option DirEntry -> option error -> S -> S * option error.

Variable fn : WalkDirFunc.

(** Calling the callback, and recording the call. *)
Definition call (above : list string) (path : string) (d : option DirEntry)
    (err : option error) (st : S * list Visit) : (S * list Visit) * option error :=
  let '(s, r) := fn path d err st.1 in
  ((s, st.2 ++ [mkVisit above path d]), r).

(** The loop of [walkDir] over the entries of the directory at [path]:
    [for _, d1 := range dirs]; [walk] is [walkDir] below this directory. *)
Definition walkEntries
    (walk : string -> DirEntry -> S * list Visit -> (S * list Visit) * option error)
    (path : string)
    : list DirEntry -> S * list Visit -> (S * list Visit) * option error :=
  fix loop dirs st :=
    match dirs with
    | [] => (st, None)
    | d1 :: rest =>
        let path1 := filepath_Join path (Name d1) in
        match walk path1 d1 st with
        | (st', Some err) =>
            if bool_decide (err = SkipDir) then (st', None) else (st', Some err)
        | (st', None) => loop rest st'
        end
    end.

(** [filepath.walkDir] *)
Fixpoint walkDir (above : list string) (path : string) (d : DirEntry)
    (st : S * list Visit) {struct d} : (S * list Visit) * option error :=
  match call above path (Some d) None st with
  | (st1, Some err) =>
      if bool_decide (err = SkipDir) && IsDir d then (st1, None) else (st1, Some err)
  | (st1, None) =>
      match d with
      | File _ => (st1, None)
      | Dir name readErr dirs =>
          match readErr with
          | None => walkEntries (walkDir (above ++ [name])) path dirs st1
          | Some e =>
              (* second call, to report the ReadDir error *)
              match call above path (Some d) (Some e) st1 with
              | (st2, Some err) =>
                  if bool_decide (err = SkipDir) then (st2, None) else (st2, Some err)
              | (st2, None) => walkEntries (walkDir (above ++ [name])) path dirs st2
              end
          end
      end
  end.

(** [filepath.WalkDir]; [lstat] is the result of [os.Lstat(root)]. *)
Definition WalkDir (root : string) (lstat : Result DirEntry) (s : S)
    : (S * list Visit) * option error :=
  let '(st, err) :=
    match lstat with
    | Err e => call [] root None (Some e) (s, [])
    | Ok info => walkDir [] root info (s, [])
    end in
  match err with
  | Some SkipDir | Some SkipAll => (st, None)
  | _ => (st, err)
  end.

End WalkDir.

(** Every entry of a tree, with its path and the directories above it. *)
Fixpoint nodes (above : list string) (path : string) (d : DirEntry) : list Visit :=
  mkVisit above path (Some d) ::
  match d with
  | File _ => []
  | Dir name _ dirs =>
      flat_map (fun d1 => nodes (above ++ [name]) (filepath_Join path (Name d1)) d1) dirs
  end.

(** ** Package tracker *)

Module Tracker.

Definition FileName : string := "_track_files.qwe".
Definition QweDir : string := ".qwe".
Definition TrackFilePermissions : N := 420. (* 0o644 *)

(** [var excludedDirs = map[string]struct{}{".git": {}, ".qwe": {}}] *)
Definition excludedDirs : gset string := {[ ".git"; ".qwe" ]}.

Record TrackFile : Type := mkTrackFile { FilePath : string }.

(** [type TrackFiles map[string]*TrackFile]; a value [None] is the nil
    pointer. *)
Abbreviation TrackFiles := (gmap string (option TrackFile)).

Definition NewTrackFile (filepath : string) : option TrackFile :=
  Some {| FilePath := filepath |}.

(** [func isExcludedDir(name string) bool] *)
Definition isExcludedDir (name : string) : bool :=
  bool_decide (name ∈ excludedDirs).

(** The two functions of encoding/json the package calls, at the type
    [TrackFiles]: [json.MarshalIndent] with an empty prefix and an
    indentation of two spaces, and [json.Unmarshal(bytes, &into)]. *)
Class Json : Type := {
  json_MarshalIndent : TrackFiles -> Result string;
  json_Unmarshal : string -> TrackFiles -> Result TrackFiles
}.

Section Registry.
Context `{!Compressor, !Json}.

(** [func (tf TrackFiles) Save(filename string) error] *)
Definition Save (tf : TrackFiles) (filename : string) : M unit :=
  match json_MarshalIndent tf with
  | Err err => throw (Errorf "marshal tracked files" err)
  | Ok bytes =>
      (* atomic write *)
      let filePath := filepath_Join QweDir filename in
      let tmp := filePath +:+ ".tmp" in
      wrap "write temp file" (os_WriteFile tmp bytes TrackFilePermissions);;
      wrap "rename temp file" (os_Rename tmp filePath);;
      wrap "compress file" (CompressFile filePath);;
      mret tt
  end.

(** [func InitTrackedFiles() error] *)
Definition InitTrackedFiles : M unit :=
  let filePath := filepath_Join QweDir FileName in
  wrap "create tracked files file" (os_WriteFile filePath "{}" TrackFilePermissions);;
  wrap "compress file" (CompressFile filePath);;
  mret tt.

(** [func LoadTrackedFilesFromFile(filename string) (TrackFiles, error)] *)
Definition LoadTrackedFilesFromFile (filename : string) : M TrackFiles :=
  let trackedFiles : TrackFiles := ∅ in
  DecompressFile filename;;
  (* If file doesn't exist, return empty map *)
  st ← attempt (os_Stat filename);
  match st with
  | Err err =>
      if os_IsNotExist err then mret trackedFiles
      else throw (Errorf "stat file" err)
  | Ok _ =>
      bytes ← wrap "read file" (os_ReadFile filename);
      match json_Unmarshal bytes trackedFiles with
      | Err err => throw (Errorf "unmarshal tracked files" err)
      | Ok trackedFiles => CompressFile filename;; mret trackedFiles
      end
  end.

(** [func UpdateTrackedFile(fileId, filePath string) error] *)
Definition UpdateTrackedFile (fileId filePath : string) : M unit :=
  let trackFilePath := filepath_Join QweDir FileName in
  trackedFiles ← wrap "error when try to loading tracked files"
                   (LoadTrackedFilesFromFile trackFilePath);
  let trackedFiles : TrackFiles := <[fileId := NewTrackFile filePath]> trackedFiles in
  (* Save the updated tracked files *)
  wrap "save tracked files" (Save trackedFiles FileName);;
  mret tt.

End Registry.

Section Scan.
Context {V : Type}.

(** [utl.Hasher], of package qweutils (not among the sources). *)
Variable Hasher : string -> string.

(** The result of [GetTracker(FileTrackerType)]: the tracker map, keyed by
    file identifier, or an error.  [GetTracker] and the type [V] of the
    tracker's records are not among the sources. *)
Variable GetTracker : Result (gmap string V).

(** The function literal passed to [filepath.WalkDir]; it captures
    [tracker] and assigns into the captured map [trackedFiles]. *)
Definition scanFn (tracker : gmap string V) : WalkDirFunc (S := TrackFiles) :=
  fun path d err trackedFiles =>
    match err with
    | Some err =>
        if os_IsPermission err then (trackedFiles, None)
        else (trackedFiles, Some err)
    | None =>
        match d with
        | None => (trackedFiles, Some ErrNilDeref)
        | Some d =>
            if IsDir d then
              (* exclude qwe itself, git also *)
              if isExcludedDir (Name d) then (trackedFiles, Some SkipDir)
              else (trackedFiles, None)
            else
              (* is file *)
              let fileId := Hasher (Name d) in
              match tracker !! fileId with
              | Some _ => (<[fileId := NewTrackFile path]> trackedFiles, None)
              | None => (trackedFiles, None)
              end
        end
    end.

(** [func findTrackedFilesInCurrDir(dir string) (TrackFiles, error)], with
    the calls of the walk callback it caused; [lstat] is what [os.Lstat(dir)]
    reports.  The progress messages printed to standard output are left
    out. *)
Definition scanCurrDir (dir : string) (lstat : Result DirEntry)
    : Result TrackFiles * list Visit :=
  let trackedFiles : TrackFiles := ∅ in
  match GetTracker with
  | Err err => (Err err, [])
  | Ok tracker =>
      match WalkDir (scanFn tracker) dir lstat trackedFiles with
      | ((_, visits), Some err) => (Err err, visits)
      | ((trackedFiles, visits), None) => (Ok trackedFiles, visits)
      end
  end.

Definition findTrackedFilesInCurrDir (dir : string) (lstat : Result DirEntry)
    : Result TrackFiles :=
  (scanCurrDir dir lstat).1.

End Scan.

(** *** Print: the tracked files as a tree *)

(** [strings.TrimPrefix(s, "./")] *)
Definition trim_dot_slash (s : string) : string :=
  match s with
  | String "." (String "/" rest) => rest
  | _ => s
  end.

(** [strings.Split(s, "/")]: the parts of [s] between the slashes, empty
    parts included; there is always at least one part. *)
Fixpoint split_slash (s : string) : list string :=
  match s with
  | EmptyString => [EmptyString]
  | String c rest =>
      if Ascii.eqb c "/" then EmptyString :: split_slash rest
      else
        match split_slash rest with
        | part :: parts => String c part :: parts
        | [] => [String c EmptyString]
        end
  end.

(** [type node struct { name string; children map[string]*node; isFile bool }].
    The nodes of one tree are reached from their parent only, so the tree of
    pointers is a tree of values. *)
Inductive node : Type :=
  | Node (name : string) (isFile : bool) (children : gmap string node).

Definition node_name (n : node) : string :=
  match n with Node name _ _ => name end.
Definition node_isFile (n : node) : bool :=
  match n with Node _ isFile _ => isFile end.
Definition node_children (n : node) : gmap string node :=
  match n with Node _ _ children => children end.

(** [child.isFile = true] *)
Definition mark_file (n : node) : node :=
  match n with Node name _ children => Node name true children end.

(** The body of [for i, p := range parts], from [current] on: an empty part
    is skipped; a part without a child gets a new one; the child of the last
    part is marked as a file; the walk goes on from the child. *)
Fixpoint insert_parts (parts : list string) (current : node) : node :=
  match parts with
  | [] => current
  | p :: rest =>
      if String.eqb p EmptyString then insert_parts rest current
      else
        let child :=
          match node_children current !! p with
          | Some child => child
          | None => Node p false ∅
          end in
        (* mark leaf as file *)
        let child :=
          match rest with
          | [] => mark_file child
          | _ => child
          end in
        match current with
        | Node name isFile children =>
            Node name isFile (<[p := insert_parts rest child]> children)
        end
  end.

(** [for _, t := range tf], over the records in the order [ts]; reading the
    path of a nil record is a nil dereference. *)
Fixpoint insert_records (ts : list (option TrackFile)) (root : node) : Result node :=
  match ts with
  | [] => Ok root
  | None :: _ => Err ErrNilDeref
  | Some t :: rest =>
      (* normalize to use '/' separators *)
      let parts := split_slash (trim_dot_slash (FilePath t)) in
      insert_records rest (insert_parts parts root)
  end.

Definition string_le (a b : string) : Prop := Is_true (String.leb a b).

#[global] Instance string_le_dec a b : Decision (string_le a b).
Proof. unfold string_le. apply _. Defined.

(** [sortKeys]: the keys of the map, sorted with [sort.Strings]. *)
Definition sortKeys {A : Type} (m : gmap string A) : list string :=
  merge_sort string_le (map_to_list m).*1.

Definition reset : string := String "027"%char "[0m".
Definition bold : string := String "027"%char "[1m".
Definition blue : string := String "027"%char "[34m".

(** The line [printNode] prints for a node. *)
Definition node_line (prefix : string) (isLast : bool) (name : string)
    (isFile : bool) : string :=
  let connector := if isLast then "└── " else "├── " in
  (* colorize: directories bold, files blue *)
  if isFile then prefix +:+ connector +:+ "[Qwe] " +:+ blue +:+ name +:+ reset
  else prefix +:+ connector +:+ bold +:+ name +:+ reset.

(** [for i, k := range keys { child := n.children[k]; last := i == len(keys)-1;
    printNode(child, nextPrefix, last) }], with [printChild] holding
    [printNode(child, _, _)] for every child. *)
Fixpoint print_keys (printChild : gmap string (string -> bool -> list string))
    (nextPrefix : string) (keys : list string) : list string :=
  match keys with
  | [] => []
  | k :: rest =>
      let last := match rest with [] => true | _ => false end in
      match printChild !! k with
      | Some print => print nextPrefix last
      | None => []
      end ++ print_keys printChild nextPrefix rest
  end.

(** [printNode], the lines it prints.  It is called on the children of a
    node only, and the root is the child of no node: the test [n != root]
    holds at every call, and the branches for the root are left out. *)
Fixpoint printNode (n : node) (prefix : string) (isLast : bool) {struct n}
    : list string :=
  match n with
  | Node name isFile children =>
      (* prepare next prefix *)
      let nextPrefix := if isLast then prefix +:+ "    " else prefix +:+ "│   " in
      node_line prefix isLast name isFile
      :: print_keys (printNode <$> children) nextPrefix (sortKeys children)
  end.

(** [Print], on the records in the order [ts] in which [range tf] yields
    them: the lines printed, or the panic. *)
Definition print_records (ts : list (option TrackFile)) : Result (list string) :=
  match insert_records ts (Node "." false ∅) with
  | Err e => Err e
  | Ok root =>
      (* Print header and then children *)
      Ok ("." :: print_keys (printNode <$> node_children root) EmptyString
                   (sortKeys (node_children root)))
  end.

(** [func (tf TrackFiles) Print() error], returning the lines it prints on
    standard output; the returned error is always nil. *)
Definition Print (tf : TrackFiles) : Result (list string) :=
  print_records (map_to_list tf).*2.

Section Query.
Context `{!Compressor, !Json}.
Context {V : Type}.

(** [utl.Hasher] and the result of [GetTracker(FileTrackerType)], as in
    section Scan. *)
Variable Hasher : string -> string.
Variable GetTracker : Result (gmap string V).

(** The result of [os.Getwd()]. *)
Variable Getwd : Result string.

(** What [os.Lstat] and [os.ReadDir] report below a directory. *)
Variable Lstat : string -> Result DirEntry.

(** Modelled from the spec: utl.FileExists, of package qweutils, is not
    among the sources; section 4.3 (rebuild policy) has the registry rebuilt
    "if the registry file is absent": the path names a file on the disk. *)
Definition FileExists (path : string) : M bool := fun w =>
  (w, Ok (bool_decide (is_Some (files w !! path)))).

(** Lifting a result that does not depend on the disk. *)
Definition lift {A : Type} (r : Result A) : M A := fun w => (w, r).

(** [func loadOrScanTrackedFiles(filePath string) (TrackFiles, error)] *)
Definition loadOrScanTrackedFiles (filePath : string) : M TrackFiles :=
  present ← FileExists filePath;
  if (present : bool) then LoadTrackedFilesFromFile filePath
  else
    workingDir ← lift Getwd;
    trackedFiles ← lift (findTrackedFilesInCurrDir Hasher GetTracker workingDir
                           (Lstat workingDir));
    wrap "save tracked files" (Save trackedFiles filePath);;
    mret trackedFiles.

(** Modelled from the spec: utl.QweIsInWorkingDir, of package qweutils, is
    not among the sources; section 6 has a repository presence check,
    [isInitialized() -> bool], that gates the entry points.  Its answer is
    taken as given. *)
Variable QweIsInWorkingDir : bool.

(** [func PrintTrackedFiles() error], returning the lines printed. *)
Definition PrintTrackedFiles : M (list string) :=
  if negb QweIsInWorkingDir then throw RepoNotFound
  else
    let trackFilePath := filepath_Join QweDir FileName in
    tf ← loadOrScanTrackedFiles trackFilePath;
    lift (Print tf).

End Query.

End Tracker.

(** ** Reference instances

    A concrete compressor and a concrete JSON codec, on which the functions
    above can be run. *)

(** A packed file is the two magic bytes of the gzip format followed by the
    payload, stored uncompressed. *)
Definition magic : string := String "031"%char (String "139"%char EmptyString).

Definition ref_gunzip (data : string) : option string :=
  match data with
  | String "031"%char (String "139"%char payload) => Some payload
  | _ => None
  end.

#[global] Program Instance refCompressor : Compressor :=
  {| gz data := magic +:+ data; gunzip := ref_gunzip |}.
Next Obligation. reflexivity. Qed.

Module RefJson.
Import Tracker.

Definition dq : ascii := "034"%char.
Definition bs : ascii := "092"%char.

Definition hexdigit (n : N) : ascii :=
  if (n <? 10)%N then ascii_of_N (48 + n) else ascii_of_N (87 + n).

(** [\u00XX] *)
Definition u00 (c : ascii) : string :=
  let n := N_of_ascii c in
  String bs (String "u" (String "0" (String "0"
    (String (hexdigit (n / 16)) (String (hexdigit (n mod 16)) EmptyString))))).

(** The escapes encoding/json applies to ASCII text (HTML-sensitive
    characters included).  Bytes above 127 are copied: the validation of
    UTF-8 is not modelled. *)
Definition escape_char (c : ascii) : string :=
  let n := N_of_ascii c in
  if (n =? 34)%N then String bs (String dq EmptyString)
  else if (n =? 92)%N then String bs (String bs EmptyString)
  else if (n =? 10)%N then String bs "n"
  else if (n =? 13)%N then String bs "r"
  else if (n =? 9)%N then String bs "t"
  else if (n <? 32)%N || (n =? 60)%N || (n =? 62)%N || (n =? 38)%N then u00 c
  else String c EmptyString.

Fixpoint escape (s : string) : string :=
  match s with
  | EmptyString => EmptyString
  | String c rest => escape_char c +:+ escape rest
  end.

Definition quote (s : string) : string :=
  String dq (escape s) +:+ String dq EmptyString.

Definition nl : string := String "010"%char EmptyString.

Definition marshal_value (v : option TrackFile) : string :=
  match v with
  | None => "null"
  | Some t =>
      "{" +:+ nl +:+ "    " +:+ quote "filepath" +:+ ": " +:+ quote (FilePath t)
      +:+ nl +:+ "  }"
  end.

Definition marshal_member (kv : string * option TrackFile) : string :=
  "  " +:+ quote kv.1 +:+ ": " +:+ marshal_value kv.2.

Fixpoint join_members (l : list string) : string :=
  match l with
  | [] => EmptyString
  | [m] => m
  | m :: rest => m +:+ "," +:+ nl +:+ join_members rest
  end.

Definition key_le (a b : string * option TrackFile) : Prop :=
  Is_true (String.leb a.1 b.1).

#[global] Instance key_le_dec a b : Decision (key_le a b).
Proof. unfold key_le. apply _. Defined.

(** [json.MarshalIndent] with an empty prefix and an indentation of two
    spaces: keys in sorted order. *)
Definition marshalIndent (tf : TrackFiles) : string :=
  match merge_sort key_le (map_to_list tf) with
  | [] => "{}"
  | l => "{" +:+ nl +:+ join_members (marshal_member <$> l) +:+ nl +:+ "}"
  end.

(** *** Reading

    The reader covers the JSON that registry files contain: objects,
    strings and [null], with arbitrary white space.  Numbers, booleans,
    arrays and objects nested deeper are rejected, and the two halves of a
    surrogate pair are not combined. *)

Inductive token : Type :=
  | TLBrace | TRBrace | TColon | TComma | TNull
  | TStr (s : string).

Inductive lexst : Type :=
  | LOut                                        (* between tokens *)
  | LStr (acc : list ascii)                     (* in a string; [acc] reversed *)
  | LEsc (acc : list ascii)                     (* after a backslash *)
  | LHex (acc : list ascii) (todo : nat) (v : N)  (* in the digits of \uXXXX *).

Definition is_space (c : ascii) : bool :=
  let n := N_of_ascii c in
  (n =? 32)%N || (n =? 9)%N || (n =? 10)%N || (n =? 13)%N.

Definition hexval (c : ascii) : option N :=
  let n := N_of_ascii c in
  if (48 <=? n)%N && (n <=? 57)%N then Some (n - 48)%N
  else if (97 <=? n)%N && (n <=? 102)%N then Some (n - 87)%N
  else if (65 <=? n)%N && (n <=? 70)%N then Some (n - 55)%N
  else None.

(** The UTF-8 bytes of a code point below 65536, last byte first. *)
Definition utf8_rev (v : N) : list ascii :=
  if (v <? 128)%N then [ascii_of_N v]
  else if (v <? 2048)%N then
    [ascii_of_N (128 + v mod 64); ascii_of_N (192 + v / 64)]
  else if (55296 <=? v)%N && (v <=? 57343)%N then
    [ascii_of_N 189; ascii_of_N 191; ascii_of_N 239]
  else
    [ascii_of_N (128 + v mod 64); ascii_of_N (128 + (v / 64) mod 64);
     ascii_of_N (224 + v / 4096)].

Definition unescape (c : ascii) : option ascii :=
  let n := N_of_ascii c in
  if (n =? 34)%N || (n =? 92)%N || (n =? 47)%N then Some c
  else if (n =? 98)%N then Some (ascii_of_N 8)
  else if (n =? 102)%N then Some (ascii_of_N 12)
  else if (n =? 110)%N then Some (ascii_of_N 10)
  else if (n =? 114)%N then Some (ascii_of_N 13)
  else if (n =? 116)%N then Some (ascii_of_N 9)
  else None.

Fixpoint lex (st : lexst) (s : string) (out : list token) : option (list token) :=
  match s with
  | EmptyString =>
      match st with LOut => Some (rev out) | _ => None end
  | String c rest =>
      let n := N_of_ascii c in
      match st with
      | LOut =>
          if is_space c then lex LOut rest out
          else if (n =? 123)%N then lex LOut rest (TLBrace :: out)
          else if (n =? 125)%N then lex LOut rest (TRBrace :: out)
          else if (n =? 58)%N then lex LOut rest (TColon :: out)
          else if (n =? 44)%N then lex LOut rest (TComma :: out)
          else if (n =? 34)%N then lex (LStr []) rest out
          else if (n =? 110)%N then
            match rest with
            | String "u" (String "l" (String "l" rest')) => lex LOut rest' (TNull :: out)
            | _ => None
            end
          else None
      | LStr acc =>
          if (n =? 34)%N then
            lex LOut rest (TStr (string_of_list_ascii (rev acc)) :: out)
          else if (n =? 92)%N then lex (LEsc acc) rest out
          else if (n <? 32)%N then None
          else lex (LStr (c :: acc)) rest out
      | LEsc acc =>
          if (n =? 117)%N then lex (LHex acc 4 0) rest out
          else match unescape c with
               | Some c' => lex (LStr (c' :: acc)) rest out
               | None => None
               end
      | LHex acc todo v =>
          match hexval c, todo with
          | Some d, 1 => lex (LStr (utf8_rev (16 * v + d) ++ acc)) rest out
          | Some d, Datatypes.S todo' => lex (LHex acc todo' (16 * v + d)) rest out
          | _, _ => None
          end
      end
  end.

Inductive pst : Type :=
  | PTop                                        (* before the value *)
  | PKey (first : bool)                         (* in the map: a key, or [}] *)
  | PColon (k : string)
  | PVal (k : string)
  | PNext                                       (* after a map value *)
  | PIKey (k : string) (cur : TrackFile) (first : bool)  (* in a record *)
  | PIColon (k : string) (cur : TrackFile) (f : string)
  | PIVal (k : string) (cur : TrackFile) (f : string)
  | PINext (k : string) (cur : TrackFile)
  | PEnd.

Definition lower (c : ascii) : ascii :=
  let n := N_of_ascii c in
  if (65 <=? n)%N && (n <=? 90)%N then ascii_of_N (n + 32) else c.

Fixpoint lower_string (s : string) : string :=
  match s with
  | EmptyString => EmptyString
  | String c rest => String (lower c) (lower_string rest)
  end.

(** Assigning a string to the field named [f] of a record: field names
    match without regard to case, unknown fields are skipped. *)
Definition set_field (cur : TrackFile) (f v : string) : TrackFile :=
  if String.eqb (lower_string f) "filepath" then {| FilePath := v |} else cur.

Fixpoint parse (st : pst) (ts : list token) (m : TrackFiles) : option TrackFiles :=
  match ts with
  | [] => match st with PEnd => Some m | _ => None end
  | t :: ts =>
      match st, t with
      | PTop, TNull => parse PEnd ts m
      | PTop, TLBrace => parse (PKey true) ts m
      | PKey _, TStr k => parse (PColon k) ts m
      | PKey true, TRBrace => parse PEnd ts m
      | PColon k, TColon => parse (PVal k) ts m
      | PVal k, TNull => parse PNext ts (<[k := None]> m)
      | PVal k, TLBrace => parse (PIKey k {| FilePath := EmptyString |} true) ts m
      | PNext, TComma => parse (PKey false) ts m
      | PNext, TRBrace => parse PEnd ts m
      | PIKey k cur _, TStr f => parse (PIColon k cur f) ts m
      | PIKey k cur true, TRBrace => parse PNext ts (<[k := Some cur]> m)
      | PIColon k cur f, TColon => parse (PIVal k cur f) ts m
      | PIVal k cur f, TStr v => parse (PINext k (set_field cur f v)) ts m
      | PIVal k cur f, TNull => parse (PINext k cur) ts m
      | PINext k cur, TComma => parse (PIKey k cur false) ts m
      | PINext k cur, TRBrace => parse PNext ts (<[k := Some cur]> m)
      | _, _ => None
      end
  end.

(** [json.Unmarshal(data, &into)] *)
Definition unmarshal (data : string) (into : TrackFiles) : Result TrackFiles :=
  match lex LOut data [] with
  | None => Err ErrSyntax
  | Some ts =>
      match parse PTop ts into with
      | None => Err ErrSyntax
      | Some m => Ok m
      end
  end.

End RefJson.

#[global] Instance refJson : Tracker.Json :=
  {| Tracker.json_MarshalIndent tf := Ok (RefJson.marshalIndent tf);
     Tracker.json_Unmarshal := RefJson.unmarshal |}.

(** ** Group/version history

    The data model of section 3 of the specification.  Identifiers, version
    ids and object references are strings. *)

Module History.

Record Version : Type := mkVersion {
  VersionId : string;
  CommitMessage : string;
  TimeStamp : string;
  Files : gmap string string            (* identifier -> ObjectRef *)
}.

Record Group : Type := mkGroup {
  GroupID : string;
  GroupName : string;
  Versions : gmap string Version;
  VersionOrder : list string;           (* oldest first *)
  Current : string
}.

Record TrackedFile : Type := mkTrackedFile {
  CurrentPath : string;
  CommitCount : nat;
  LastCommitMessage : string;
  LastCommitTimestamp : string
}.

(** The contents of the control directory: the file tracker, the group
    tracker and the object store. *)
Record Repo : Type := mkRepo {
  FileTracker : gmap string TrackedFile;
  GroupTracker : gmap string Group;
  Objects : gmap string string          (* ObjectRef -> bytes *)
}.

End History.

#[global] Instance Result_ret : MRet Result := fun A a => Ok a.
#[global] Instance Result_bind : MBind Result := fun A B f r =>
  match r with
  | Ok a => f a
  | Err e => Err e
  end.

(** [o], or the error [e] when there is none. *)
Definition or_fail {A : Type} (e : error) (o : option A) : Result A :=
  match o with
  | Some a => Ok a
  | None => Err e
  end.

(** ** Package initializer *)

Module Initializer.
Import History.

Section GroupInit.

(** [utl.Hasher]: the group id is [utl.Hasher(groupName)]
    (TestGroupInit_SuccessfulInitialization). *)
Variable Hasher : string -> string.

(** Modelled from the spec: initializer.GroupInit is not among the sources,
    only its tests are.  Section 4.4: an absent group name becomes an
    active group with exactly one Version ("Initial Tracking", empty files,
    timestamp = now) and [current] set to that version's id; a name that is
    already present fails with GroupAlreadyTracked; before the repository is
    initialized the call fails with RepoNotFound.  The state is the
    repository, [None] while it is not initialized; [now] is the clock and
    [newId] the version id generated for the call. *)
Definition GroupInit (now newId : string) (groupName : string)
    (st : option Repo) : option Repo * option error :=
  match st with
  | None => (st, Some RepoNotFound)
  | Some repo =>
      let groupID := Hasher groupName in
      match GroupTracker repo !! groupID with
      | Some _ => (st, Some GrpAlreadyTracked)
      | None =>
          let initial :=
            {| VersionId := newId; CommitMessage := "Initial Tracking";
               TimeStamp := now; Files := ∅ |} in
          let group :=
            {| GroupID := groupID; GroupName := groupName;
               Versions := {[ newId := initial ]};
               VersionOrder := [newId]; Current := newId |} in
          (Some {| FileTracker := FileTracker repo;
                   GroupTracker := <[groupID := group]> (GroupTracker repo);
                   Objects := Objects repo |}, None)
      end
  end.

End GroupInit.

End Initializer.

(** ** Package diff *)

Module Diff.
Import History.

Section Diff.
Context {Script : Type}.

(** The Identity Resolver of section 4.2, applied to the path of the file. *)
Variable identify : string -> string.

(** The comparison of two contents, producing the edit script. *)
Variable delta : string -> string -> Script.

Definition is_empty (s : string) : bool :=
  match s with EmptyString => true | String _ _ => false end.

(** Modelled from the spec: [versionAt] of section 4.4; version ids are
    never reused, so the version is looked up in the groups of the
    repository. *)
Definition versionAt (repo : Repo) (versionId : string) : Result Version :=
  or_fail VersionNotFound
    (head (omap (fun g => Versions g !! versionId)
                (map_to_list (GroupTracker repo)).*2)).

(** Modelled from the spec: the snapshot of a file in a version
    (section 4.6): the version, its entry for the file, the object. *)
Definition snapshot (repo : Repo) (id versionId : string) : Result string :=
  v ← versionAt repo versionId;
  ref ← or_fail FileNotTracked (Files v !! id);
  or_fail ObjectNotFound (Objects repo !! ref).

(** Modelled from the spec: the last committed snapshot of a file, the
    entry for the file in the newest version that has one. *)
Definition lastCommitted (repo : Repo) (id : string) : Result string :=
  let newest (g : Group) :=
    head (omap (fun vid => Versions g !! vid ≫= fun v => Files v !! id)
               (reverse (VersionOrder g))) in
  ref ← or_fail FileNotTracked
          (head (omap newest (map_to_list (GroupTracker repo)).*2));
  or_fail ObjectNotFound (Objects repo !! ref).

(** Modelled from the spec: diff.Diff is not among the sources, only its
    tests are.  Section 4.6: exactly one empty version id fails with
    ArgumentMismatch; a file whose Identifier has no record in the Tracker
    Registry fails with FileNotTracked; both ids empty compares the last
    committed snapshot with the content on disk, both non-empty compares the
    two snapshots.  The shape of the arguments is checked before the
    repository is looked at: TestDiffArgumentValidation expects the argument
    error in a directory that holds no repository.  [st] is the repository
    ([None] while it is not initialized), [disk] the working tree. *)
Definition Diff (filePath versionIdA versionIdB : string)
    (st : option Repo) (disk : gmap string string) : Result Script :=
  if xorb (is_empty versionIdA) (is_empty versionIdB) then Err ArgumentMismatch
  else
    match st with
    | None => Err RepoNotFound
    | Some repo =>
        let id := identify filePath in
        match FileTracker repo !! id with
        | None => Err FileNotTracked
        | Some _ =>
            if is_empty versionIdA then
              old ← lastCommitted repo id;
              new ← or_fail (ErrNotExist filePath) (disk !! filePath);
              mret (delta old new)
            else
              a ← snapshot repo id versionIdA;
              b ← snapshot repo id versionIdB;
              mret (delta a b)
        end
    end.

End Diff.

End Diff.

(** ** Sample inputs *)

(** [.qwe/_track_files.qwe] *)
Definition registry_path : string :=
  filepath_Join Tracker.QweDir Tracker.FileName.

(** A disk on which nothing was written yet. *)
Definition fresh : World := mkWorld ∅ ∅ [].


(** The registry file of TestLoadTrackedFilesFromFile_InvalidJSON: the
    packed form of a text that is not JSON. *)
Definition broken : World :=
  mkWorld {[ registry_path := gz "not valid json" ]} ∅ [].

(** The registry of TestLoadTrackedFilesFromFile_WithData. *)
Definition three_records : list (string * string) :=
  [("file1", "/path/to/file1.txt"); ("file2", "/path/to/file2.go");
   ("file3", "/path/to/file3.md")].

(** A message of 61 bytes. *)
Definition long_message : string :=
  "0123456789012345678901234567890123456789012345678901234567890".

(** The disk after [InitTrackedFiles], the starting point of the tests of
    [UpdateTrackedFile]. *)
Definition initialized : World := (Tracker.InitTrackedFiles fresh).1.

(** A working tree with a git directory, a control directory and a
    directory that cannot be read. *)
Definition sample_tree : DirEntry :=
  Dir "proj" None
    [ Dir ".git" None [File "config"; File "main.go"];
      Dir ".qwe" None [File "_track_files.qwe"];
      File "README.md";
      Dir "src" None
        [ File "main.go";
          Dir "vault" (Some (ErrPermission "/proj/src/vault")) [] ] ].

Definition sample_hasher (name : string) : string := "#" +:+ name.

Definition sample_tracker : gmap string unit :=
  {[ "#main.go" := tt; "#config" := tt ]}.

(** A repository right after its initialization: nothing is tracked. *)
Definition empty_repo : History.Repo := History.mkRepo ∅ ∅ ∅.

(** ** Vocabulary of the statements *)

(** The disk after [path] was rewritten in place by the system call [c]. *)
Definition rewritten (c : syscall) (path data : string) (w : World) : World :=
  mkWorld (<[path := data]> (files w)) (locked w)
          (hist w ++ [(c, <[path := data]> (files w))]).

Section Vocabulary.
Context `{!Compressor}.

(** The disk states [Save] goes through when nothing refuses a write. *)
Definition save_steps (target bytes : string) (fs : gmap string string)
    : list (syscall * gmap string string) :=
  let tmp := target +:+ ".tmp" in
  let fs2 := <[tmp := bytes]> fs in
  let fs3 := <[target := bytes]> (delete tmp fs2) in
  [(SysTrunc tmp, <[tmp := EmptyString]> fs);
   (SysWrite tmp bytes, fs2);
   (SysRename tmp target, fs3);
   (SysCompress target, <[target := gz bytes]> fs3)].

(** The disk states [InitTrackedFiles] goes through. *)
Definition init_steps (target : string) (fs : gmap string string)
    : list (syscall * gmap string string) :=
  [(SysTrunc target, <[target := EmptyString]> fs);
   (SysWrite target "{}", <[target := "{}"]> fs);
   (SysCompress target, <[target := gz "{}"]> (<[target := "{}"]> fs))].

(** In an observable state, [target] holds what it held before ([old]) or
    the complete new [content], plain or packed. *)
Definition undisturbed (target : string) (old : option string) (content : string)
    (step : syscall * gmap string string) : Prop :=
  step.2 !! target = old
  \/ step.2 !! target = Some content
  \/ step.2 !! target = Some (gz content).

End Vocabulary.

(** The registry that holds the records [recs], assigned one after the
    other: [tf[id] = NewTrackFile(path)]. *)
Definition registry_of (recs : list (string * string)) : Tracker.TrackFiles :=
  foldl (fun tf r => <[r.1 := Tracker.NewTrackFile r.2]> tf) ∅ recs.

(** No directory above the visited entry is an excluded one. *)
Definition clear_above (v : Visit) : Prop :=
  Forall (fun a => Tracker.isExcludedDir a = false) (v_above v).

(** Every record of [s'] was in [s] already or was made for a file among
    the visits [new], under the identifier of its name and with the path it
    was presented under. *)
Definition recorded (Hasher : string -> string) (s s' : Tracker.TrackFiles)
    (new : list Visit) : Prop :=
  forall id x,
    s' !! id = Some x ->
    s !! id = Some x
    \/ exists v name,
         v ∈ new /\ v_entry v = Some (File name)
         /\ id = Hasher name /\ x = Tracker.NewTrackFile (v_path v).

(** A walk took [st] to [st']: it added visits, all of entries among
    [within] with no excluded directory above them, and the records of
    files it visited. *)
Definition walked (Hasher : string -> string) (within : list Visit)
    (st st' : Tracker.TrackFiles * list Visit) : Prop :=
  exists new,
    st'.2 = st.2 ++ new /\ Forall clear_above new /\ new ⊆ within
    /\ recorded Hasher st.1 st'.1 new.

(** ** Further vocabulary *)

Section MoreVocabulary.
Context `{!Compressor, !Tracker.Json}.




End MoreVocabulary.

(** The disk of [w'] differs from the disk of [w] at most at the paths
    [paths], and the same paths refuse writes. *)
Definition touches_only (paths : list string) (w w' : World) : Prop :=
  (forall q, q ∉ paths -> files w' !! q = files w !! q)
  /\ locked w' = locked w.

(** A disk whose registry file refuses writes. *)
Definition readonly_registry : World :=
  mkWorld {[ registry_path := gz "{}" ]} {[ registry_path ]} [].

(** ** Package display: the scan *)

Module DisplayScan.

(** [var excludedDirs] and [func isExcludedDir] of package display. *)
Definition excludedDirs : gset string := {[ ".git"; ".qwe" ]}.

Definition isExcludedDir (name : string) : bool :=
  bool_decide (name ∈ excludedDirs).

Record TrackFile : Type := mkTrackFile {
  FilePath : string;
  CommitCount : Z;
  LastCommitMessage : string;
  LastCommitTime : string
}.

(** [type TrackFiles map[string]*TrackFile] *)
Abbreviation TrackFiles := (gmap string (option TrackFile)).

Definition NewTrackFile (filepath : string) : option TrackFile :=
  Some {| FilePath := filepath; CommitCount := 0;
          LastCommitMessage := "-"; LastCommitTime := "-" |}.

Section Scan.
Context {V Ver : Type}.

(** [utl.Hasher] and the result of [tr.GetTracker(0)]; neither function is
    among the sources. *)
Variable Hasher : string -> string.
Variable GetTracker : Result (gmap string V).

(** What the scan uses of a tracker record (package tracker, not among the
    sources): [len(trackInfo.Versions)], [trackInfo.CommitsCount()],
    [trackInfo.LastVersion()] and the fields [CommitMessage] and [TimeStamp]
    of a version. *)
Variable len_Versions : V -> nat.
Variable CommitsCount : V -> Z.
Variable LastVersion : V -> Ver.
Variable CommitMessage : Ver -> string.
Variable TimeStamp : Ver -> string.

(** The function literal passed to [filepath.WalkDir]. *)
Definition scanFn (tracker : gmap string V) : WalkDirFunc (S := TrackFiles) :=
  fun path d err trackedFiles =>
    (* exclude qwe itself, git also *)
    match err with
    | Some err =>
        if os_IsPermission err then (trackedFiles, None)
        else (trackedFiles, Some err)
    | None =>
        match d with
        | None => (trackedFiles, Some ErrNilDeref)
        | Some d =>
            if IsDir d then
              if isExcludedDir (Name d) then (trackedFiles, Some SkipDir)
              else (trackedFiles, None)
            else
              (* is file *)
              let fileId := Hasher (Name d) in
              match tracker !! fileId with
              | Some trackInfo =>
                  if (len_Versions trackInfo =? 0)%nat then
                    (<[fileId := NewTrackFile path]> trackedFiles, None)
                  else
                    (<[fileId := Some
                         {| FilePath := path;
                            CommitCount := CommitsCount trackInfo;
                            LastCommitMessage := CommitMessage (LastVersion trackInfo);
                            LastCommitTime := TimeStamp (LastVersion trackInfo) |}]>
                       trackedFiles, None)
              | None => (trackedFiles, None)
              end
        end
    end.

(** [func findTrackedFilesInCurrDir(dir string) (TrackFiles, error)] of
    package display, with the calls of the walk callback. *)
Definition scanCurrDir (dir : string) (lstat : Result DirEntry)
    : Result TrackFiles * list Visit :=
  let trackedFiles : TrackFiles := ∅ in
  match GetTracker with
  | Err err => (Err err, [])
  | Ok tracker =>
      match WalkDir (scanFn tracker) dir lstat trackedFiles with
      | ((_, visits), Some err) => (Err err, visits)
      | ((trackedFiles, visits), None) => (Ok trackedFiles, visits)
      end
  end.

Definition findTrackedFilesInCurrDir (dir : string) (lstat : Result DirEntry)
    : Result TrackFiles :=
  (scanCurrDir dir lstat).1.

End Scan.

End DisplayScan.

(** ** Vocabulary of the scan *)

Section ScanVocabulary.
Context {V : Type}.
Variable Hasher : string -> string.
Variable tracker : gmap string V.

(** What a call of the tracker's callback does to the registry: the visit
    of a file whose identifier is known assigns its record. *)
Definition assign (s : Tracker.TrackFiles) (v : Visit) : Tracker.TrackFiles :=
  match v_entry v with
  | Some (File name) =>
      match tracker !! Hasher name with
      | Some _ => <[Hasher name := Tracker.NewTrackFile (v_path v)]> s
      | None => s
      end
  | _ => s
  end.

End ScanVocabulary.

(** The calls [filepath.WalkDir] makes: an entry without an error, a
    directory with the error of reading it, or no entry with the error of
    [os.Lstat] on the root. *)
Definition walk_call (d : option DirEntry) (err : option error) : Prop :=
  match d, err with
  | Some _, None => True
  | Some (Dir _ _ _), Some _ => True
  | None, Some _ => True
  | _, _ => False
  end.



(** No directory that the scan enters fails to be read for a reason other
    than a permission: excluded directories are not entered. *)
Fixpoint fatal_free (d : DirEntry) : bool :=
  match d with
  | File _ => true
  | Dir name readErr dirs =>
      Tracker.isExcludedDir name
      || (match readErr with Some e => os_IsPermission e | None => true end
          && forallb fatal_free dirs)
  end.

(** Two files with the same name in two directories. *)
Definition twin_tree : DirEntry :=
  Dir "proj" None
    [ Dir "a" None [File "main.go"];
      Dir "b" None [File "main.go"] ].

(** A tree in which the git directory cannot be read, for a reason other
    than a permission, and another directory lacks the permission. *)
Definition guarded_tree : DirEntry :=
  Dir "proj" None
    [ Dir ".git" (Some (ErrIO "/proj/.git")) [];
      Dir "src" (Some (ErrPermission "/proj/src")) [File "main.go"] ].

(** A tree in which a directory that the scan enters cannot be read. *)
Definition failing_tree : DirEntry :=
  Dir "proj" None
    [ File "README.md";
      Dir "src" (Some (ErrIO "/proj/src")) [File "main.go"] ].

(** Two registries, of package tracker and of package display, hold the same
    identifiers with the same file paths. *)
Definition same_paths (tf : Tracker.TrackFiles) (tfd : DisplayScan.TrackFiles)
    : Prop :=
  forall id,
    fmap DisplayScan.FilePath <$> tfd !! id = fmap Tracker.FilePath <$> tf !! id.

(** The entries of a tree that the scan is due to reach from [above] are
    all in the log. *)
Definition reached (above : list string) (path : string) (d : DirEntry)
    (log : list Visit) : Prop :=
  forall v, v ∈ nodes above path d -> clear_above v -> v ∈ log.

(** Two outcomes of a walk: states related by [R], the same calls, the same
    result. *)
Definition agree {S1 S2 : Type} (R : S1 -> S2 -> Prop)
    (x1 : (S1 * list Visit) * option error)
    (x2 : (S2 * list Visit) * option error) : Prop :=
  R x1.1.1 x2.1.1 /\ x1.1.2 = x2.1.2 /\ x1.2 = x2.2.

(** Tracker records reduced to what the scan of package display reads: the
    versions of a file, oldest first, each with its commit message and its
    time stamp. *)
Definition sample_log : gmap string (list (string * string)) :=
  {[ "#main.go" := [("Initial Tracking", "2025-01-01 09:00");
                    ("second commit", "2025-01-02 10:00")];
     "#README.md" := [] ]}.

Definition sample_last (versions : list (string * string)) : string * string :=
  default (EmptyString, EmptyString) (last versions).

(** A disk that holds the registry of the three sample records. *)
Definition saved : World :=
  (Tracker.Save (registry_of three_records) Tracker.FileName fresh).1.

(** ** Vocabulary of the tree of tracked files *)

(** The child that the part [p] leads to, and its marking when the part is
    the last one. *)
Definition child_of (p : string) (children : gmap string Tracker.node) : Tracker.node :=
  match children !! p with
  | Some child => child
  | None => Tracker.Node p false ∅
  end.

Definition tip (rest : list string) (child : Tracker.node) : Tracker.node :=
  match rest with
  | [] => Tracker.mark_file child
  | _ => child
  end.

(** The node reached from [n] through the children named [keys]. *)
Fixpoint descend (keys : list string) (n : Tracker.node) : option Tracker.node :=
  match keys with
  | [] => Some n
  | k :: rest =>
      match Tracker.node_children n !! k with
      | Some child => descend rest child
      | None => None
      end
  end.

(** Below [n], along [keys], there is a node marked as a file, and it is
    named [name]. *)
Definition file_at (keys : list string) (name : string) (n : Tracker.node) : Prop :=
  exists n', descend keys n = Some n'
             /\ Tracker.node_isFile n' = true /\ Tracker.node_name n' = name.

(** Every node below [n] is named by the key it is stored under. *)
Inductive keyed : Tracker.node -> Prop :=
  | keyed_node name isFile children :
      (forall k child, children !! k = Some child ->
                       Tracker.node_name child = k /\ keyed child) ->
      keyed (Tracker.Node name isFile children).

(** The parts of a path that are not empty. *)
Definition components (parts : list string) : list string :=
  List.filter (fun p => negb (String.eqb p EmptyString)) parts.

(** [line] is the line of a file named [name]. *)
Definition shown_as_file (name line : string) : Prop :=
  exists prefix isLast, line = Tracker.node_line prefix isLast name true.

(** A registry with a nil record, as [json.Unmarshal] makes it of a null
    value. *)
Definition registry_with_nil : Tracker.TrackFiles :=
  <["gone" := None]> (registry_of three_records).

(** * Properties *)

(** ** Rendering of commit messages *)

Lemma bytes_append (a b : string) :
  list_ascii_of_string (a +:+ b) = list_ascii_of_string a ++ list_ascii_of_string b.
Proof. induction a as [|c a IH]; simpl; [done | by rewrite IH]. Qed.

Lemma bytes_prefix (n : nat) (s : string) :
  list_ascii_of_string (substring 0 n s) = take n (list_ascii_of_string s).
Proof.
  revert n. induction s as [|c s IH]; intros [|n]; simpl; try done.
  by rewrite IH.
Qed.

Lemma bytes_length (s : string) :
  length (list_ascii_of_string s) = String.length s.
Proof. induction s as [|c s IH]; simpl; [done | by rewrite IH]. Qed.

(** C10: a commit message longer than 60 bytes is rendered as its first 57
    bytes followed by three dots; any other message is rendered
    unchanged. *)
Theorem truncateMsg_spec (msg : string) :
  (60 < String.length msg ->
     list_ascii_of_string (Display.truncateMsg msg)
     = take 57 (list_ascii_of_string msg) ++ list_ascii_of_string "...")
  /\ (String.length msg <= 60 -> Display.truncateMsg msg = msg).
Proof.
  unfold Display.truncateMsg, Display.MaxCommitMessageLen,
    Display.CommitMessageTruncLen.
  split; intros Hlen.
  - destruct (Nat.ltb_spec 60 (String.length msg)) as [_|Hge]; [|lia].
    by rewrite bytes_append, bytes_prefix.
  - destruct (Nat.ltb_spec 60 (String.length msg)) as [Hlt|_]; [lia|done].
Qed.

Lemma truncateMsg_spec_witness :
  (60 < String.length long_message
   /\ list_ascii_of_string (Display.truncateMsg long_message)
      = take 57 (list_ascii_of_string long_message) ++ list_ascii_of_string "...")
  /\ (String.length "Initial Tracking" <= 60
      /\ Display.truncateMsg "Initial Tracking" = "Initial Tracking").
Proof.
  assert (H1 : 60 < String.length long_message) by (vm_compute; lia).
  assert (H2 : String.length "Initial Tracking" <= 60) by (vm_compute; lia).
  split; (split; [assumption|]).
  - exact (proj1 (truncateMsg_spec long_message) H1).
  - exact (proj2 (truncateMsg_spec "Initial Tracking") H2).
Defined.

(** ** The registry file: loading and saving *)

Ltac run :=
  unfold mbind, M_bind, mret, M_ret, wrap, attempt, throw, rewrite_file,
    commit, os_ReadFile, os_Stat; simpl.

Section RegistryFacts.
Context `{!Compressor, !Tracker.Json}.
Import Tracker.

Lemma lookup_rewritten c path data w :
  files (rewritten c path data w) !! path = Some data.
Proof. apply lookup_insert_eq. Qed.

Lemma DecompressFile_absent path w :
  files w !! path = None ->
  DecompressFile path w = (w, Err (ErrNotExist path)).
Proof. intros Hno. unfold DecompressFile. run. by rewrite Hno. Qed.

Lemma DecompressFile_header path w c :
  files w !! path = Some c -> gunzip c = None ->
  DecompressFile path w = (w, Err ErrHeader).
Proof. intros Hc Hg. unfold DecompressFile. run. by rewrite Hc, Hg. Qed.

Lemma DecompressFile_locked path w c plain :
  files w !! path = Some c -> gunzip c = Some plain -> path ∈ locked w ->
  DecompressFile path w = (w, Err (ErrPermission path)).
Proof.
  intros Hc Hg Hl. unfold DecompressFile. run. rewrite Hc, Hg. run.
  by rewrite decide_True.
Qed.

Lemma DecompressFile_ok path w c plain :
  files w !! path = Some c -> gunzip c = Some plain -> path ∉ locked w ->
  DecompressFile path w = (rewritten (SysDecompress path) path plain w, Ok tt).
Proof.
  intros Hc Hg Hl. unfold DecompressFile. run. rewrite Hc, Hg. run.
  by rewrite decide_False.
Qed.

Lemma CompressFile_absent path w :
  files w !! path = None ->
  CompressFile path w = (w, Err (ErrNotExist path)).
Proof. intros Hno. unfold CompressFile. run. by rewrite Hno. Qed.

Lemma CompressFile_ok path w data :
  files w !! path = Some data -> path ∉ locked w ->
  CompressFile path w = (rewritten (SysCompress path) path (gz data) w, Ok tt).
Proof.
  intros Hc Hl. unfold CompressFile. run. rewrite Hc.
  by rewrite decide_False.
Qed.

(** What [LoadTrackedFilesFromFile] does on a packed file it may rewrite. *)
Lemma load_run path w c plain :
  files w !! path = Some c -> gunzip c = Some plain -> path ∉ locked w ->
  LoadTrackedFilesFromFile path w =
    let w1 := rewritten (SysDecompress path) path plain w in
    match json_Unmarshal plain ∅ with
    | Err e => (w1, Err (Errorf "unmarshal tracked files" e))
    | Ok tf => (rewritten (SysCompress path) path (gz plain) w1, Ok tf)
    end.
Proof.
  intros Hc Hg Hl. unfold LoadTrackedFilesFromFile.
  unfold mbind at 1. unfold M_bind at 1.
  rewrite (DecompressFile_ok _ _ _ _ Hc Hg Hl).
  run. rewrite lookup_insert_eq. simpl. rewrite lookup_insert_eq.
  destruct (json_Unmarshal plain ∅) as [tf|e]; [|done].
  by rewrite (CompressFile_ok path _ plain (lookup_rewritten _ _ _ _) Hl).
Qed.

(** A load that succeeds found a packed, well-formed file. *)
Lemma load_ok_inv path w w' tf :
  LoadTrackedFilesFromFile path w = (w', Ok tf) ->
  exists c plain,
    files w !! path = Some c /\ gunzip c = Some plain /\ (path ∉ locked w)
    /\ json_Unmarshal plain ∅ = Ok tf
    /\ files w' = <[path := gz plain]> (files w)
    /\ locked w' = locked w.
Proof.
  intros Hload.
  destruct (files w !! path) as [c|] eqn:Hc.
  2:{ unfold LoadTrackedFilesFromFile in Hload.
      unfold mbind at 1 in Hload. unfold M_bind at 1 in Hload.
      by rewrite (DecompressFile_absent _ _ Hc) in Hload. }
  destruct (gunzip c) as [plain|] eqn:Hg.
  2:{ unfold LoadTrackedFilesFromFile in Hload.
      unfold mbind at 1 in Hload. unfold M_bind at 1 in Hload.
      by rewrite (DecompressFile_header _ _ _ Hc Hg) in Hload. }
  destruct (decide (path ∈ locked w)) as [Hl|Hl].
  { unfold LoadTrackedFilesFromFile in Hload.
    unfold mbind at 1 in Hload. unfold M_bind at 1 in Hload.
    by rewrite (DecompressFile_locked _ _ _ _ Hc Hg Hl) in Hload. }
  rewrite (load_run _ _ _ _ Hc Hg Hl) in Hload. simpl in Hload.
  destruct (json_Unmarshal plain ∅) as [tf'|e] eqn:Hu; [|done].
  injection Hload as <- <-.
  exists c, plain. repeat split; try done.
  simpl. by rewrite insert_insert_eq.
Qed.

Lemma append_tmp_ne (path : string) : path +:+ ".tmp" <> path.
Proof.
  intros Heq. apply (f_equal list_ascii_of_string) in Heq.
  rewrite bytes_append in Heq. apply (f_equal length) in Heq.
  rewrite length_app in Heq. simpl in Heq. lia.
Qed.

Lemma save_run tf filename bytes w :
  let target := filepath_Join QweDir filename in
  json_MarshalIndent tf = Ok bytes ->
  target +:+ ".tmp" ∉ locked w -> target ∉ locked w ->
  Save tf filename w =
    (mkWorld (<[target := gz bytes]>
                (<[target := bytes]>
                   (delete (target +:+ ".tmp")
                      (<[target +:+ ".tmp" := bytes]> (files w)))))
             (locked w) (hist w ++ save_steps target bytes (files w)),
     Ok tt).
Proof.
  intros target Hm Htmp Htarget. unfold Save. rewrite Hm.
  fold target. unfold os_WriteFile, os_Rename, CompressFile. run.
  rewrite decide_False by done. simpl.
  rewrite lookup_insert_eq. rewrite decide_False by done. simpl.
  rewrite lookup_insert_eq. rewrite decide_False by done. simpl.
  unfold save_steps. by rewrite <- !app_assoc.
Qed.


End RegistryFacts.

Section LoadOutcomes.
Context `{!Compressor, !Tracker.Json}.
Import Tracker.


Lemma load_ok path w c plain tf :
  files w !! path = Some c -> gunzip c = Some plain -> path ∉ locked w ->
  json_Unmarshal plain ∅ = Ok tf ->
  exists w',
    LoadTrackedFilesFromFile path w = (w', Ok tf)
    /\ files w' = <[path := gz plain]> (files w)
    /\ locked w' = locked w.
Proof.
  intros Hc Hg Hl Hu. rewrite (load_run _ _ _ _ Hc Hg Hl). simpl. rewrite Hu.
  eexists. split; [done|]. simpl. by rewrite insert_insert_eq.
Qed.

Lemma load_absent path w :
  files w !! path = None ->
  LoadTrackedFilesFromFile path w = (w, Err (ErrNotExist path)).
Proof.
  intros Hno. unfold LoadTrackedFilesFromFile.
  unfold mbind at 1. unfold M_bind at 1.
  by rewrite (DecompressFile_absent _ _ Hno).
Qed.


End LoadOutcomes.



(** C2: on the registry file of TestLoadTrackedFilesFromFile_InvalidJSON the
    load fails in the parser and returns without packing the file again: the
    file, packed before the call, holds the plain text after it, and the
    next load fails in the decompression. *)
Theorem load_invalid_json_stays_unpacked :
  let r := Tracker.LoadTrackedFilesFromFile registry_path broken in
  files broken !! registry_path = Some (gz "not valid json")
  /\ r.2 = Err (Errorf "unmarshal tracked files" ErrSyntax)
  /\ files r.1 !! registry_path = Some "not valid json"
  /\ gunzip "not valid json" = None
  /\ (Tracker.LoadTrackedFilesFromFile registry_path r.1).2 = Err ErrHeader.
Proof. vm_compute. repeat split. Qed.

(** ** Atomic replacement of the registry file *)

Section AtomicWrite.
Context `{!Compressor, !Tracker.Json}.
Import Tracker.

Lemma save_steps_undisturbed target bytes fs :
  Forall (undisturbed target (fs !! target) bytes) (save_steps target bytes fs).
Proof.
  pose proof (append_tmp_ne target) as Hne.
  unfold save_steps.
  repeat first [apply Forall_nil_2 | apply Forall_cons_2]; unfold undisturbed; simpl.
  - left. by rewrite lookup_insert_ne.
  - left. by rewrite lookup_insert_ne.
  - right. left. apply lookup_insert_eq.
  - right. right. apply lookup_insert_eq.
Qed.

(** Whatever refuses a write, [Save] performs an initial part of
    [save_steps]; when it returns nil it has performed all of them. *)
Lemma save_trace tf filename bytes w :
  let target := filepath_Join QweDir filename in
  json_MarshalIndent tf = Ok bytes ->
  trace (Save tf filename) w `prefix_of` save_steps target bytes (files w)
  /\ ((Save tf filename w).2 = Ok tt ->
      trace (Save tf filename) w = save_steps target bytes (files w)).
Proof.
  intros target Hm.
  destruct (decide (target +:+ ".tmp" ∈ locked w)) as [Htmp|Htmp].
  { assert (Hfail : forall h, Save tf filename (mkWorld (files w) (locked w) h)
       = (mkWorld (files w) (locked w) h,
          Err (Errorf "write temp file" (ErrPermission (target +:+ ".tmp"))))).
    { intros h. unfold Save. rewrite Hm. fold target. unfold os_WriteFile. run.
      by rewrite decide_True. }
    split.
    - unfold trace. rewrite Hfail. simpl. apply prefix_nil.
    - destruct w as [fs lk h]. by rewrite Hfail. }
  destruct (decide (target ∈ locked w)) as [Htarget|Htarget].
  { assert (Hfail : forall h, Save tf filename (mkWorld (files w) (locked w) h)
       = (mkWorld (<[target +:+ ".tmp" := bytes]> (files w)) (locked w)
            (h ++ take 2 (save_steps target bytes (files w))),
          Err (Errorf "rename temp file" (ErrPermission target)))).
    { intros h. unfold Save. rewrite Hm. fold target.
      unfold os_WriteFile, os_Rename. run.
      rewrite decide_False by done. simpl.
      rewrite lookup_insert_eq. rewrite decide_True by done. simpl.
      by rewrite <- app_assoc. }
    split.
    - unfold trace. rewrite Hfail. simpl. by eexists.
    - destruct w as [fs lk h]. by rewrite Hfail. }
  split.
  - unfold trace. by rewrite (save_run tf filename bytes).
  - intros _. unfold trace. by rewrite (save_run tf filename bytes).
Qed.

Lemma init_run w :
  registry_path ∉ locked w ->
  InitTrackedFiles w =
    (mkWorld (<[registry_path := gz "{}"]> (<[registry_path := "{}"]> (files w)))
             (locked w) (hist w ++ init_steps registry_path (files w)),
     Ok tt).
Proof.
  intros Hl. unfold InitTrackedFiles. fold registry_path.
  unfold os_WriteFile, CompressFile. run.
  rewrite decide_False by done. simpl.
  rewrite lookup_insert_eq. rewrite decide_False by done. simpl.
  unfold init_steps. by rewrite <- !app_assoc.
Qed.

Lemma init_locked w :
  registry_path ∈ locked w ->
  InitTrackedFiles w =
    (w, Err (Errorf "create tracked files file" (ErrPermission registry_path))).
Proof.
  intros Hl. unfold InitTrackedFiles. fold registry_path.
  unfold os_WriteFile. run. by rewrite decide_True.
Qed.

(** C3, as the code has it: [Save] writes the serialized registry to the
    sibling path [target.tmp], renames it over the target and then packs the
    target in place, so in every state the disk goes through the target
    holds what it held before or the complete new content;
    [InitTrackedFiles] writes "{}" to the target itself, with no temporary
    file and no rename, and then packs it. *)
Theorem save_renames_init_writes_in_place tf filename bytes w :
  let target := filepath_Join QweDir filename in
  let tmp := target +:+ ".tmp" in
  json_MarshalIndent tf = Ok bytes ->
  Forall (undisturbed target (files w !! target) bytes) (trace (Save tf filename) w)
  /\ ((Save tf filename w).2 = Ok tt ->
      (trace (Save tf filename) w).*1
      = [SysTrunc tmp; SysWrite tmp bytes; SysRename tmp target; SysCompress target])
  /\ ((InitTrackedFiles w).2 = Ok tt ->
      trace InitTrackedFiles w = init_steps registry_path (files w)).
Proof.
  intros target tmp Hm.
  destruct (save_trace tf filename bytes w Hm) as [[rest Hpre] Hfull].
  fold target in Hpre, Hfull.
  split.
  { pose proof (save_steps_undisturbed target bytes (files w)) as Hall.
    rewrite Hpre in Hall. by apply Forall_app in Hall as [Hall _]. }
  split.
  { intros Hok. by rewrite (Hfull Hok). }
  intros Hok.
  destruct (decide (registry_path ∈ locked w)) as [Hl|Hl].
  { by rewrite (init_locked _ Hl) in Hok. }
  unfold trace. by rewrite init_run.
Qed.

End AtomicWrite.

Lemma save_renames_init_writes_in_place_witness :
  Tracker.json_MarshalIndent (registry_of three_records)
  = Ok (RefJson.marshalIndent (registry_of three_records))
  /\ Forall (undisturbed registry_path (files fresh !! registry_path)
               (RefJson.marshalIndent (registry_of three_records)))
            (trace (Tracker.Save (registry_of three_records) Tracker.FileName) fresh).
Proof.
  assert (Hm : Tracker.json_MarshalIndent (registry_of three_records)
               = Ok (RefJson.marshalIndent (registry_of three_records)))
    by reflexivity.
  split; [exact Hm|].
  exact (proj1 (save_renames_init_writes_in_place
                  (registry_of three_records) Tracker.FileName _ fresh Hm)).
Defined.

(** [InitTrackedFiles] on a disk without a registry: the first state the
    disk goes through has an empty registry file, which is neither the absent
    file of before nor the complete new file; and no rename takes place. *)
Lemma init_is_not_atomic :
  ~ (Forall (undisturbed registry_path (files fresh !! registry_path) "{}")
            (trace Tracker.InitTrackedFiles fresh)
     /\ SysRename (registry_path +:+ ".tmp") registry_path
          ∈ (trace Tracker.InitTrackedFiles fresh).*1).
Proof.
  intros [Hall _].
  unfold trace in Hall. rewrite init_run in Hall by (simpl; set_solver).
  apply Forall_cons in Hall as [Hfirst _].
  destruct Hfirst as [H|[H|H]]; vm_compute in H; discriminate H.
Qed.

(** ** Updating and reloading the registry *)






Section UpdateFacts.
Context `{!Compressor, !Tracker.Json}.
Import Tracker.



End UpdateFacts.


Section RoundTrip.
Context `{!Compressor, !Tracker.Json}.
Import Tracker.



End RoundTrip.


(** ** Scanning the working tree *)

Section ScanFacts.
Context {V : Type}.
Variable Hasher : string -> string.
Variable tracker : gmap string V.
Import Tracker.

#[local] Abbreviation fn := (scanFn Hasher tracker).

Lemma recorded_refl s new : recorded Hasher s s new.
Proof. intros id x Hx. by left. Qed.

Lemma recorded_trans s0 s1 s2 new1 new2 :
  recorded Hasher s0 s1 new1 -> recorded Hasher s1 s2 new2 ->
  recorded Hasher s0 s2 (new1 ++ new2).
Proof.
  intros H1 H2 id x Hx.
  destruct (H2 id x Hx) as [Hold|(v & name & Hin & Hrest)].
  - destruct (H1 id x Hold) as [Hold'|(v & name & Hin & Hrest)]; [by left|].
    right. exists v, name. split; [|done]. apply elem_of_app. by left.
  - right. exists v, name. split; [|done]. apply elem_of_app. by right.
Qed.

Lemma walked_refl within st : walked Hasher within st st.
Proof.
  exists []. rewrite app_nil_r. repeat split; try done.
  - intros v Hv. by apply elem_of_nil in Hv.
  - apply recorded_refl.
Qed.

Lemma walked_trans within1 within2 within st0 st1 st2 :
  walked Hasher within1 st0 st1 -> walked Hasher within2 st1 st2 ->
  within1 ⊆ within -> within2 ⊆ within ->
  walked Hasher within st0 st2.
Proof.
  intros (new1 & Hlog1 & Hclear1 & Hsub1 & Hrec1)
         (new2 & Hlog2 & Hclear2 & Hsub2 & Hrec2) Hw1 Hw2.
  exists (new1 ++ new2). repeat split.
  - by rewrite Hlog2, Hlog1, app_assoc.
  - by apply Forall_app.
  - intros v Hv. apply elem_of_app in Hv as [Hv|Hv]; auto.
  - by apply recorded_trans with st1.1.
Qed.

(** One call of the callback on an entry. *)
Lemma call_walked above path d err st st' r :
  Forall (fun a => isExcludedDir a = false) above ->
  call fn above path (Some d) err st = (st', r) ->
  walked Hasher [mkVisit above path (Some d)] st st'
  /\ (r = None -> err = None -> IsDir d = true -> isExcludedDir (Name d) = false).
Proof.
  intros Habove Hcall. unfold call, scanFn in Hcall.
  assert (Hsame : forall s, s = st.1 ->
            walked Hasher [mkVisit above path (Some d)] st
                   (s, st.2 ++ [mkVisit above path (Some d)])).
  { intros s ->. exists [mkVisit above path (Some d)]. repeat split; try done.
    - by apply Forall_singleton.
    - apply recorded_refl. }
  destruct err as [e|].
  { destruct (os_IsPermission e); injection Hcall as <- <-; (split; [by apply Hsame|done]). }
  destruct (IsDir d) eqn:Hdir.
  { destruct (isExcludedDir (Name d)) eqn:Hex; injection Hcall as <- <-;
      (split; [by apply Hsame|done]). }
  destruct (tracker !! Hasher (Name d)) as [info|] eqn:Hknown;
    injection Hcall as <- <-; (split; [|done]); [|by apply Hsame].
  exists [mkVisit above path (Some d)]. repeat split; try done.
  - by apply Forall_singleton.
  - intros id x Hx. simpl in Hx.
    destruct (decide (Hasher (Name d) = id)) as [<-|Hne].
    + rewrite lookup_insert_eq in Hx. injection Hx as <-.
      right. exists (mkVisit above path (Some d)), (Name d).
      repeat split; try done; [apply list_elem_of_here|].
      simpl. by destruct d.
    + rewrite lookup_insert_ne in Hx by done. by left.
Qed.

Lemma walkEntries_walked above name path dirs :
  Forall (fun d => forall above path st st' r,
            Forall (fun a => isExcludedDir a = false) above ->
            walkDir fn above path d st = (st', r) ->
            walked Hasher (nodes above path d) st st') dirs ->
  forall st st' r,
    Forall (fun a => isExcludedDir a = false) (above ++ [name]) ->
    walkEntries (walkDir fn (above ++ [name])) path dirs st = (st', r) ->
    walked Hasher
      (flat_map (fun d1 => nodes (above ++ [name]) (filepath_Join path (Name d1)) d1) dirs)
      st st'.
Proof.
  induction 1 as [|d1 rest Hd1 _ IH]; intros st st' r Habove Hloop; simpl in Hloop.
  - injection Hloop as <- _. apply walked_refl.
  - destruct (walkDir fn (above ++ [name]) (filepath_Join path (Name d1)) d1 st)
      as [st1 [err|]] eqn:Hwalk.
    + assert (st' = st1) as -> by (by destruct (bool_decide (err = SkipDir)); injection Hloop).
      eapply walked_trans; [by eapply Hd1 | apply walked_refl | |]; simpl.
      * intros v Hv. apply elem_of_app. by left.
      * done.
    + eapply walked_trans; [by eapply Hd1 | by eapply IH | |]; simpl.
      * intros v Hv. apply elem_of_app. by left.
      * intros v Hv. apply elem_of_app. by right.
Qed.

Lemma walkDir_walked d :
  forall above path st st' r,
    Forall (fun a => isExcludedDir a = false) above ->
    walkDir fn above path d st = (st', r) ->
    walked Hasher (nodes above path d) st st'.
Proof.
  induction d as [name|name readErr dirs IH] using DirEntry_tree_ind;
    intros above path st st' r Habove Hwalk; simpl in Hwalk.
  - destruct (call fn above path (Some (File name)) None st) as [st1 r1] eqn:Hcall.
    destruct (call_walked _ _ _ _ _ _ _ Habove Hcall) as [Hw _].
    assert (st' = st1) as ->.
    { destruct r1 as [err|]; [|by injection Hwalk].
      rewrite andb_false_r in Hwalk. by injection Hwalk. }
    done.
  - destruct (call fn above path (Some (Dir name readErr dirs)) None st)
      as [st1 r1] eqn:Hcall.
    destruct (call_walked _ _ _ _ _ _ _ Habove Hcall) as [Hw1 Hentered].
    assert (Hhead : [mkVisit above path (Some (Dir name readErr dirs))]
                    ⊆ nodes above path (Dir name readErr dirs)).
    { intros v Hv. apply list_elem_of_singleton in Hv as ->. apply list_elem_of_here. }
    assert (Htail :
      flat_map (fun d1 => nodes (above ++ [name]) (filepath_Join path (Name d1)) d1) dirs
      ⊆ nodes above path (Dir name readErr dirs)).
    { intros v Hv. simpl. by apply list_elem_of_further. }
    destruct r1 as [err|].
    { assert (st' = st1) as ->
        by (by destruct (bool_decide (err = SkipDir) && true); injection Hwalk).
      eapply walked_trans; [exact Hw1 | apply walked_refl | done | done]. }
    assert (Hbelow : Forall (fun a => isExcludedDir a = false) (above ++ [name])).
    { apply Forall_app. split; [done|]. apply Forall_singleton. by apply Hentered. }
    destruct readErr as [e|].
    + destruct (call fn above path (Some (Dir name (Some e) dirs)) (Some e) st1)
        as [st2 r2] eqn:Hcall2.
      destruct (call_walked _ _ _ _ _ _ _ Habove Hcall2) as [Hw2 _].
      assert (Hw12 : walked Hasher (nodes above path (Dir name (Some e) dirs)) st st2)
        by (eapply walked_trans; [exact Hw1 | exact Hw2 | done | done]).
      destruct r2 as [err|].
      { assert (st' = st2) as ->
          by (by destruct (bool_decide (err = SkipDir)); injection Hwalk).
        done. }
      eapply walked_trans; [exact Hw12 | | done | exact Htail].
      by eapply walkEntries_walked.
    + eapply walked_trans; [exact Hw1 | | done | exact Htail].
      by eapply walkEntries_walked.
Qed.

Lemma WalkDir_walked dir lstat s visits r :
  WalkDir fn dir lstat ∅ = ((s, visits), r) ->
  Forall clear_above visits
  /\ recorded Hasher ∅ s visits
  /\ (forall root, lstat = Ok root -> visits ⊆ nodes [] dir root).
Proof.
  unfold WalkDir. intros Hwalk.
  destruct lstat as [root|e].
  - destruct (walkDir fn [] dir root (∅, [])) as [st' r'] eqn:Hw.
    assert (st' = (s, visits)) as ->.
    { destruct r' as [[]|]; by injection Hwalk. }
    destruct (walkDir_walked root [] dir _ _ _ (Forall_nil_2 _) Hw)
      as (new & Hlog & Hclear & Hsub & Hrec).
    simpl in Hlog, Hrec. subst new.
    repeat split; try done. by intros root' [= <-].
  - unfold call, scanFn in Hwalk. simpl in Hwalk.
    assert (s = ∅ /\ visits = [mkVisit [] dir None]) as [-> ->].
    { destruct (os_IsPermission e); [by injection Hwalk|].
      destruct e; by injection Hwalk. }
    split; [|split; [apply recorded_refl | done]].
    apply Forall_singleton. apply Forall_nil_2.
Qed.

End ScanFacts.

(** C9: in a scan, no entry that lies beneath an excluded directory (".git"
    or ".qwe") is presented to the walk callback, and every record of the
    resulting registry is the record of a visited file, with the path it was
    visited under; so no file beneath an excluded directory is visited or
    recorded.  The visited entries are entries of the scanned tree. *)
Theorem scan_skips_excluded {V : Type} (Hasher : string -> string)
    (GetTracker : Result (gmap string V)) (dir : string) (lstat : Result DirEntry) :
  let visits := (Tracker.scanCurrDir Hasher GetTracker dir lstat).2 in
  (forall v a, v ∈ visits -> a ∈ v_above v -> Tracker.isExcludedDir a = false)
  /\ (forall root v,
        lstat = Ok root -> v ∈ nodes [] dir root ->
        (exists a, a ∈ v_above v /\ Tracker.isExcludedDir a = true) ->
        v ∉ visits)
  /\ (forall root v, lstat = Ok root -> v ∈ visits -> v ∈ nodes [] dir root)
  /\ (forall tf id x,
        Tracker.findTrackedFilesInCurrDir Hasher GetTracker dir lstat = Ok tf ->
        tf !! id = Some x ->
        exists v name,
          v ∈ visits /\ v_entry v = Some (File name) /\ id = Hasher name
          /\ x = Tracker.NewTrackFile (v_path v) /\ clear_above v).
Proof.
  intros visits.
  assert (Hfacts : Forall clear_above visits
                   /\ (forall root, lstat = Ok root -> visits ⊆ nodes [] dir root)
                   /\ (forall tf, Tracker.findTrackedFilesInCurrDir Hasher GetTracker dir lstat
                                  = Ok tf -> recorded Hasher ∅ tf visits)).
  { subst visits. unfold Tracker.findTrackedFilesInCurrDir, Tracker.scanCurrDir.
    destruct GetTracker as [tracker|e]; simpl.
    { destruct (WalkDir (Tracker.scanFn Hasher tracker) dir lstat ∅)
        as [[s visits] r] eqn:Hwalk.
      destruct (WalkDir_walked _ _ _ _ _ _ _ Hwalk) as (Hclear & Hrec & Hsub).
      destruct r as [err|]; simpl; repeat split; try done.
      by intros tf [= <-]. }
    repeat split; try done.
    intros root _ v Hv. by apply elem_of_nil in Hv. }
  destruct Hfacts as (Hclear & Hsub & Hrec).
  assert (Hnever : forall v a, v ∈ visits -> a ∈ v_above v ->
                               Tracker.isExcludedDir a = false).
  { intros v a Hv Ha. rewrite Forall_forall in Hclear.
    specialize (Hclear v Hv). unfold clear_above in Hclear.
    rewrite Forall_forall in Hclear. by apply Hclear. }
  split; [exact Hnever|]. split.
  { intros root v _ _ (a & Ha & Hex) Hv.
    rewrite (Hnever v a Hv Ha) in Hex. discriminate Hex. }
  split.
  { intros root v Hroot Hv. by apply (Hsub root Hroot). }
  intros tf id x Hres Hx.
  destruct (Hrec tf Hres id x Hx) as [Hold|(v & name & Hv & Hentry & Hid & Hpath)].
  { by rewrite lookup_empty in Hold. }
  exists v, name. repeat split; try done.
  rewrite Forall_forall in Hclear. by apply Hclear.
Qed.

Lemma scan_skips_excluded_witness :
  mkVisit ["proj"; ".git"] "/proj/.git/main.go" (Some (File "main.go"))
    ∈ nodes [] "/proj" sample_tree
  /\ mkVisit ["proj"; ".git"] "/proj/.git/main.go" (Some (File "main.go"))
       ∉ (Tracker.scanCurrDir sample_hasher (Ok sample_tracker) "/proj"
            (Ok sample_tree)).2.
Proof.
  assert (Hnode : mkVisit ["proj"; ".git"] "/proj/.git/main.go" (Some (File "main.go"))
                    ∈ nodes [] "/proj" sample_tree).
  { simpl. do 3 apply list_elem_of_further. apply list_elem_of_here. }
  split; [exact Hnode|].
  apply (proj1 (proj2 (scan_skips_excluded sample_hasher (Ok sample_tracker)
                         "/proj" (Ok sample_tree)))
           sample_tree _ eq_refl Hnode).
  exists ".git". split; [|reflexivity].
  simpl. apply list_elem_of_further. apply list_elem_of_here.
Defined.

(** On the sample tree, the file "main.go" is recorded with its path under
    "src"; its namesake and "config" under ".git" are not. *)
Example scan_sample_tree :
  Tracker.findTrackedFilesInCurrDir sample_hasher (Ok sample_tracker) "/proj"
    (Ok sample_tree)
  = Ok {[ "#main.go" := Tracker.NewTrackFile "/proj/src/main.go" ]}.
Proof. vm_compute. reflexivity. Qed.

(** ** Group initialization *)

Section GroupInitFacts.
Variable Hasher : string -> string.
Import History Initializer.

(** C4: in an initialized repository, the second of two calls of
    [GroupInit] with the same name fails with GroupAlreadyTracked; when the
    first call succeeds, which it does when the name is not yet tracked, the
    group has exactly one Version, with the commit message
    "Initial Tracking" and no files, [Current] is that version and
    [VersionOrder] has length 1; without a repository the call fails with
    RepoNotFound. *)
Theorem GroupInit_twice (now1 id1 now2 id2 name : string) (repo : Repo) :
  let first := GroupInit Hasher now1 id1 name (Some repo) in
  GroupInit Hasher now2 id2 name first.1 = (first.1, Some GrpAlreadyTracked)
  /\ (GroupTracker repo !! Hasher name = None -> first.2 = None)
  /\ (first.2 = None ->
      exists repo1 group initial,
        first.1 = Some repo1
        /\ GroupTracker repo1 !! Hasher name = Some group
        /\ GroupName group = name
        /\ size (Versions group) = 1
        /\ Versions group !! Current group = Some initial
        /\ CommitMessage initial = "Initial Tracking"
        /\ Files initial = ∅
        /\ VersionOrder group = [Current group]
        /\ length (VersionOrder group) = 1)
  /\ GroupInit Hasher now1 id1 name None = (None, Some RepoNotFound).
Proof.
  unfold GroupInit.
  destruct (GroupTracker repo !! Hasher name) as [g|] eqn:Hg; simpl.
  - rewrite Hg. repeat split; done.
  - rewrite lookup_insert_eq. repeat split; try done.
    intros _. eexists _, _, _. repeat split; simpl.
    + apply lookup_insert_eq.
    + done.
    + apply map_size_singleton.
    + apply lookup_singleton_eq.
    + done.
    + done.
    + done.
    + done.
Qed.

End GroupInitFacts.

Lemma GroupInit_twice_witness :
  let first :=
    Initializer.GroupInit sample_hasher "2025-01-01 10:00" "v1" "test-group"
      (Some empty_repo) in
  first.2 = None
  /\ exists repo1 group initial,
       first.1 = Some repo1
       /\ History.GroupTracker repo1 !! sample_hasher "test-group" = Some group
       /\ History.GroupName group = "test-group"
       /\ size (History.Versions group) = 1
       /\ History.Versions group !! History.Current group = Some initial
       /\ History.CommitMessage initial = "Initial Tracking"
       /\ History.Files initial = ∅
       /\ History.VersionOrder group = [History.Current group]
       /\ length (History.VersionOrder group) = 1.
Proof.
  pose proof (GroupInit_twice sample_hasher "2025-01-01 10:00" "v1"
                "2025-01-01 10:05" "v2" "test-group" empty_repo)
    as (_ & Hfirst & Hstate & _).
  assert (Hnil : (Initializer.GroupInit sample_hasher "2025-01-01 10:00" "v1"
                    "test-group" (Some empty_repo)).2 = None)
    by (apply Hfirst; reflexivity).
  split; [exact Hnil | exact (Hstate Hnil)].
Defined.

(** ** Diff: argument shape and untracked files *)

Section DiffFacts.
Context {Script : Type}.
Variable identify : string -> string.
Variable delta : string -> string -> Script.
Import History.

Lemma is_empty_spec (s : string) : Diff.is_empty s = true <-> s = EmptyString.
Proof. by destruct s. Qed.

Lemma or_fail_error {A : Type} (e e' : error) (o : option A) :
  or_fail e o = Err e' -> e' = e.
Proof. destruct o; [done | by intros [= <-]]. Qed.

Lemma snapshot_errors repo id versionId e :
  Diff.snapshot repo id versionId = Err e ->
  e = VersionNotFound \/ e = FileNotTracked \/ e = ObjectNotFound.
Proof.
  unfold Diff.snapshot, Diff.versionAt, mbind, Result_bind.
  destruct (or_fail VersionNotFound _) as [v|e1] eqn:H1.
  - destruct (or_fail FileNotTracked _) as [ref|e2] eqn:H2.
    + intros H3%or_fail_error. auto.
    + apply or_fail_error in H2 as ->. intros [= <-]. auto.
  - apply or_fail_error in H1 as ->. intros [= <-]. auto.
Qed.

Lemma lastCommitted_errors repo id e :
  Diff.lastCommitted repo id = Err e ->
  e = FileNotTracked \/ e = ObjectNotFound.
Proof.
  unfold Diff.lastCommitted, mbind, Result_bind.
  destruct (or_fail FileNotTracked _) as [ref|e1] eqn:H1.
  - intros H2%or_fail_error. auto.
  - apply or_fail_error in H1 as ->. intros [= <-]. auto.
Qed.

(** C5: [Diff] fails with the argument-mismatch error exactly when one of
    the two version ids is empty and the other is not. *)
Theorem Diff_argument_mismatch (filePath a b : string) (st : option Repo)
    (disk : gmap string string) :
  Diff.Diff identify delta filePath a b st disk = Err ArgumentMismatch
  <-> (a = EmptyString /\ b <> EmptyString) \/ (a <> EmptyString /\ b = EmptyString).
Proof.
  unfold Diff.Diff.
  destruct a as [|ca a], b as [|cb b]; simpl.
  - split; [|intros [[_ Hb]|[Ha _]]; done].
    destruct st as [repo|]; [|done].
    destruct (FileTracker repo !! identify filePath); [|done].
    unfold mbind, Result_bind, mret, Result_ret.
    destruct (Diff.lastCommitted repo _) as [old|e] eqn:Hold.
    + destruct (or_fail _ (disk !! filePath)) as [new|e] eqn:Hnew; [done|].
      apply or_fail_error in Hnew as ->. done.
    + apply lastCommitted_errors in Hold as [-> | ->]; done.
  - split; [intros _; by left | done].
  - split; [intros _; by right | done].
  - split; [|intros [[Ha _]|[_ Hb]]; done].
    destruct st as [repo|]; [|done].
    destruct (FileTracker repo !! identify filePath); [|done].
    unfold mbind, Result_bind, mret, Result_ret.
    destruct (Diff.snapshot repo _ (String ca a)) as [sa|e] eqn:Hsa.
    + destruct (Diff.snapshot repo _ (String cb b)) as [sb|e] eqn:Hsb; [done|].
      apply snapshot_errors in Hsb as [-> | [-> | ->]]; done.
    + apply snapshot_errors in Hsa as [-> | [-> | ->]]; done.
Qed.

(** C6: in an initialized repository, with both version ids empty or both
    non-empty, [Diff] on a file whose identifier has no record in the tracker
    registry fails with FileNotTracked. *)
Theorem Diff_untracked (filePath a b : string) (repo : Repo)
    (disk : gmap string string) :
  FileTracker repo !! identify filePath = None ->
  (a = EmptyString <-> b = EmptyString) ->
  Diff.Diff identify delta filePath a b (Some repo) disk = Err FileNotTracked.
Proof.
  intros Hnone Hshape. unfold Diff.Diff.
  assert (xorb (Diff.is_empty a) (Diff.is_empty b) = false) as ->.
  { destruct a, b; simpl; try done.
    - discriminate (proj1 Hshape eq_refl).
    - discriminate (proj2 Hshape eq_refl). }
  by rewrite Hnone.
Qed.

End DiffFacts.

Lemma Diff_untracked_witness :
  Diff.Diff sample_hasher pair "untracked.txt" EmptyString EmptyString
    (Some empty_repo) {[ "untracked.txt" := "test content" ]}
  = Err FileNotTracked.
Proof.
  apply Diff_untracked.
  - reflexivity.
  - split; reflexivity.
Defined.

(** The four cases of TestDiffArgumentValidation, in a directory without a
    repository. *)
Example Diff_argument_cases :
  Diff.Diff sample_hasher pair "test.txt" EmptyString EmptyString None ∅
    = Err RepoNotFound
  /\ Diff.Diff sample_hasher pair "test.txt" "1" "2" None ∅ = Err RepoNotFound
  /\ Diff.Diff sample_hasher pair "test.txt" EmptyString "1" None ∅
     = Err ArgumentMismatch
  /\ Diff.Diff sample_hasher pair "test.txt" "1" EmptyString None ∅
     = Err ArgumentMismatch.
Proof. repeat split. Qed.

(** * Further properties *)

(** ** The registry file: what a load and a save leave on the disk *)

Section RegistryDisk.
Context `{!Compressor, !Tracker.Json}.
Import Tracker.

Lemma touches_only_refl paths w : touches_only paths w w.
Proof. by split. Qed.

Lemma touches_only_trans paths w0 w1 w2 :
  touches_only paths w0 w1 -> touches_only paths w1 w2 ->
  touches_only paths w0 w2.
Proof.
  intros [Hf1 Hl1] [Hf2 Hl2]. split; [|congruence].
  intros q Hq. by rewrite Hf2, Hf1.
Qed.

Lemma touches_only_weaken paths paths' w w' :
  paths ⊆ paths' -> touches_only paths w w' -> touches_only paths' w w'.
Proof.
  intros Hsub [Hf Hl]. split; [|done].
  intros q Hq. apply Hf. intros Hin. by apply Hq, Hsub.
Qed.

Lemma touches_only_rewritten c path data w :
  touches_only [path] w (rewritten c path data w).
Proof.
  split; [|done]. intros q Hq. simpl. apply lookup_insert_ne.
  intros ->. apply Hq, list_elem_of_here.
Qed.

(** X1: a load, whatever its outcome, changes no file but the one it was given
    and leaves the permissions alone. *)
Theorem load_touches_only_its_file (path : string) (w : World) :
  touches_only [path] w (LoadTrackedFilesFromFile path w).1.
Proof.
  destruct (files w !! path) as [c|] eqn:Hc.
  2:{ unfold LoadTrackedFilesFromFile. unfold mbind at 1. unfold M_bind at 1.
      rewrite (DecompressFile_absent _ _ Hc). apply touches_only_refl. }
  destruct (gunzip c) as [plain|] eqn:Hg.
  2:{ unfold LoadTrackedFilesFromFile. unfold mbind at 1. unfold M_bind at 1.
      rewrite (DecompressFile_header _ _ _ Hc Hg). apply touches_only_refl. }
  destruct (decide (path ∈ locked w)) as [Hl|Hl].
  { unfold LoadTrackedFilesFromFile. unfold mbind at 1. unfold M_bind at 1.
    rewrite (DecompressFile_locked _ _ _ _ Hc Hg Hl). apply touches_only_refl. }
  rewrite (load_run _ _ _ _ Hc Hg Hl). simpl.
  destruct (json_Unmarshal plain ∅) as [tf|e]; simpl.
  - eapply touches_only_trans; apply touches_only_rewritten.
  - apply touches_only_rewritten.
Qed.

(** X2: a load that succeeded can be repeated: the second load returns the same
    registry and leaves the disk as the first one left it. *)
Theorem load_repeatable (path : string) (w w1 : World) (tf : TrackFiles) :
  LoadTrackedFilesFromFile path w = (w1, Ok tf) ->
  exists w2,
    LoadTrackedFilesFromFile path w1 = (w2, Ok tf) /\ files w2 = files w1.
Proof.
  intros Hload.
  destruct (load_ok_inv _ _ _ _ Hload) as (c & plain & Hc & Hg & Hl & Hu & Hfiles & Hlk).
  destruct (load_ok path w1 (gz plain) plain tf) as (w2 & Hload2 & Hfiles2 & _).
  - rewrite Hfiles. apply lookup_insert_eq.
  - apply gunzip_gz.
  - by rewrite Hlk.
  - done.
  - exists w2. split; [done|].
    by rewrite Hfiles2, Hfiles, insert_insert_eq.
Qed.

End RegistryDisk.

Lemma load_repeatable_witness :
  exists w2,
    Tracker.LoadTrackedFilesFromFile registry_path
      (Tracker.LoadTrackedFilesFromFile registry_path initialized).1
    = (w2, Ok ∅)
    /\ files w2 = files (Tracker.LoadTrackedFilesFromFile registry_path initialized).1.
Proof.
  apply (load_repeatable registry_path initialized).
  vm_compute. reflexivity.
Defined.

Section SaveDisk.
Context `{!Compressor, !Tracker.Json}.
Import Tracker.

Lemma save_marshal_error tf filename e w :
  json_MarshalIndent tf = Err e ->
  Save tf filename w = (w, Err (Errorf "marshal tracked files" e)).
Proof. intros Hm. unfold Save. by rewrite Hm. Qed.

Lemma save_tmp_refused tf filename bytes w :
  let target := filepath_Join QweDir filename in
  json_MarshalIndent tf = Ok bytes -> target +:+ ".tmp" ∈ locked w ->
  Save tf filename w
  = (w, Err (Errorf "write temp file" (ErrPermission (target +:+ ".tmp")))).
Proof.
  intros target Hm Htmp. unfold Save. rewrite Hm. fold target.
  unfold os_WriteFile. run. by rewrite decide_True.
Qed.

Lemma save_rename_refused tf filename bytes w :
  let target := filepath_Join QweDir filename in
  json_MarshalIndent tf = Ok bytes ->
  target +:+ ".tmp" ∉ locked w -> target ∈ locked w ->
  Save tf filename w
  = (mkWorld (<[target +:+ ".tmp" := bytes]> (files w)) (locked w)
       (hist w ++ take 2 (save_steps target bytes (files w))),
     Err (Errorf "rename temp file" (ErrPermission target))).
Proof.
  intros target Hm Htmp Htarget. unfold Save. rewrite Hm. fold target.
  unfold os_WriteFile, os_Rename. run.
  rewrite decide_False by done. simpl.
  rewrite lookup_insert_eq. rewrite decide_True by done. simpl.
  by rewrite <- app_assoc.
Qed.

Lemma save_frame tf filename w :
  touches_only [filepath_Join QweDir filename;
                filepath_Join QweDir filename +:+ ".tmp"] w (Save tf filename w).1.
Proof.
  set (target := filepath_Join QweDir filename).
  destruct (json_MarshalIndent tf) as [bytes|e] eqn:Hm.
  2:{ rewrite (save_marshal_error _ _ _ _ Hm). apply touches_only_refl. }
  destruct (decide (target +:+ ".tmp" ∈ locked w)) as [Htmp|Htmp].
  { rewrite (save_tmp_refused _ _ _ _ Hm Htmp). apply touches_only_refl. }
  destruct (decide (target ∈ locked w)) as [Htarget|Htarget].
  { rewrite (save_rename_refused _ _ _ _ Hm Htmp Htarget). split; [|done].
    intros q Hq. simpl. apply lookup_insert_ne. intros <-.
    apply Hq. fold target. set_solver. }
  rewrite (save_run _ _ _ _ Hm Htmp Htarget). fold target. split; [|done].
  intros q Hq. simpl.
  assert (q <> target) by (intros ->; apply Hq; set_solver).
  assert (q <> target +:+ ".tmp") by (intros ->; apply Hq; set_solver).
  by rewrite !lookup_insert_ne, lookup_delete_ne, lookup_insert_ne.
Qed.

Lemma save_ok_inv tf filename w w' :
  Save tf filename w = (w', Ok tt) ->
  exists bytes,
    json_MarshalIndent tf = Ok bytes
    /\ files w' !! filepath_Join QweDir filename = Some (gz bytes)
    /\ files w' !! (filepath_Join QweDir filename +:+ ".tmp") = None.
Proof.
  set (target := filepath_Join QweDir filename). intros Hsave.
  destruct (json_MarshalIndent tf) as [bytes|e] eqn:Hm.
  2:{ by rewrite (save_marshal_error _ _ _ _ Hm) in Hsave. }
  destruct (decide (target +:+ ".tmp" ∈ locked w)) as [Htmp|Htmp].
  { by rewrite (save_tmp_refused _ _ _ _ Hm Htmp) in Hsave. }
  destruct (decide (target ∈ locked w)) as [Htarget|Htarget].
  { by rewrite (save_rename_refused _ _ _ _ Hm Htmp Htarget) in Hsave. }
  rewrite (save_run _ _ _ _ Hm Htmp Htarget) in Hsave.
  injection Hsave as <-. exists bytes. split; [done|]. simpl. fold target.
  split; [apply lookup_insert_eq|].
  pose proof (append_tmp_ne target) as Hne.
  rewrite !lookup_insert_ne by done. apply lookup_delete_eq.
Qed.

(** X3: a save, whatever its outcome, changes no file but the target and its
    temporary sibling. *)
Theorem save_touches_only_target_and_tmp tf filename w :
  let target := filepath_Join QweDir filename in
  touches_only [target; target +:+ ".tmp"] w (Save tf filename w).1.
Proof. apply save_frame. Qed.

(** X4: after a save that returned nil, the target holds the packed
    serialization of the registry and no file is left at the temporary path,
    whatever was there before. *)
Theorem save_success_state tf filename w w' :
  let target := filepath_Join QweDir filename in
  Save tf filename w = (w', Ok tt) ->
  exists bytes,
    json_MarshalIndent tf = Ok bytes
    /\ files w' !! target = Some (gz bytes)
    /\ files w' !! (target +:+ ".tmp") = None.
Proof. apply save_ok_inv. Qed.

(** X5: when the rename onto the target is refused, the save returns the rename
    error, the target is as it was, and the temporary file stays on the disk
    with the serialized registry. *)
Theorem save_refused_leaves_tmp tf filename bytes w :
  let target := filepath_Join QweDir filename in
  json_MarshalIndent tf = Ok bytes ->
  target +:+ ".tmp" ∉ locked w -> target ∈ locked w ->
  let r := Save tf filename w in
  r.2 = Err (Errorf "rename temp file" (ErrPermission target))
  /\ files r.1 !! target = files w !! target
  /\ files r.1 !! (target +:+ ".tmp") = Some bytes.
Proof.
  intros target Hm Htmp Htarget.
  rewrite (save_rename_refused _ _ _ _ Hm Htmp Htarget). simpl. fold target.
  pose proof (append_tmp_ne target) as Hne.
  split; [done|]. split; [by apply lookup_insert_ne | apply lookup_insert_eq].
Qed.

(** X6: [InitTrackedFiles] resets the registry: when it returns nil the file
    holds the packed text "{}", whatever it held before, and a load reads
    the registry that encoding/json makes of "{}". *)
Theorem init_then_load tf w :
  registry_path ∉ locked w ->
  json_Unmarshal "{}" ∅ = Ok tf ->
  exists w1 w2,
    InitTrackedFiles w = (w1, Ok tt)
    /\ files w1 !! registry_path = Some (gz "{}")
    /\ touches_only [registry_path] w w1
    /\ LoadTrackedFilesFromFile registry_path w1 = (w2, Ok tf).
Proof.
  intros Hl Hu. rewrite (init_run _ Hl).
  destruct (load_ok registry_path
              (mkWorld (<[registry_path := gz "{}"]> (<[registry_path := "{}"]> (files w)))
                 (locked w) (hist w ++ init_steps registry_path (files w)))
              (gz "{}") "{}" tf) as (w2 & Hload & _); try done.
  { apply lookup_insert_eq. }
  { apply gunzip_gz. }
  eexists _, w2. split; [done|]. split; [apply lookup_insert_eq|].
  split; [|done]. split; [|done].
  intros q Hq. simpl.
  assert (q <> registry_path) by (intros ->; apply Hq; set_solver).
  by rewrite !lookup_insert_ne.
Qed.

End SaveDisk.

Lemma save_success_state_witness :
  exists bytes,
    Tracker.json_MarshalIndent (registry_of three_records) = Ok bytes
    /\ files (Tracker.Save (registry_of three_records) Tracker.FileName fresh).1
         !! registry_path = Some (gz bytes)
    /\ files (Tracker.Save (registry_of three_records) Tracker.FileName fresh).1
         !! (registry_path +:+ ".tmp") = None.
Proof.
  apply (save_success_state (registry_of three_records) Tracker.FileName fresh).
  vm_compute. reflexivity.
Defined.

Lemma save_refused_leaves_tmp_witness :
  let r := Tracker.Save (registry_of three_records) Tracker.FileName readonly_registry in
  r.2 = Err (Errorf "rename temp file" (ErrPermission registry_path))
  /\ files r.1 !! registry_path = files readonly_registry !! registry_path
  /\ files r.1 !! (registry_path +:+ ".tmp")
     = Some (RefJson.marshalIndent (registry_of three_records)).
Proof.
  apply (save_refused_leaves_tmp (registry_of three_records) Tracker.FileName
           (RefJson.marshalIndent (registry_of three_records)) readonly_registry).
  - reflexivity.
  - intros Hin. vm_compute in Hin. discriminate Hin.
  - apply (bool_decide_unpack _). vm_compute. exact I.
Defined.

Lemma init_then_load_witness :
  exists w1 w2,
    Tracker.InitTrackedFiles broken = (w1, Ok tt)
    /\ files w1 !! registry_path = Some (gz "{}")
    /\ touches_only [registry_path] broken w1
    /\ Tracker.LoadTrackedFilesFromFile registry_path w1 = (w2, Ok ∅).
Proof.
  apply (init_then_load ∅ broken).
  - intros Hin. vm_compute in Hin. discriminate Hin.
  - vm_compute. reflexivity.
Defined.

(** ** Updates of the registry *)

Section UpdateSequences.
Context `{!Compressor, !Tracker.Json}.
Import Tracker.

(** X7: without a registry file an update fails in the load and creates
    nothing: the disk is as it was. *)
Theorem update_without_registry (fileId filePath : string) (w : World) :
  files w !! registry_path = None ->
  UpdateTrackedFile fileId filePath w
  = (w, Err (Errorf "error when try to loading tracked files"
               (ErrNotExist registry_path))).
Proof.
  intros Hno. unfold UpdateTrackedFile. fold registry_path. run.
  by rewrite (load_absent _ _ Hno).
Qed.


End UpdateSequences.


Lemma update_without_registry_witness :
  Tracker.UpdateTrackedFile "test-file-id" "/path/to/test/file.txt" fresh
  = (fresh, Err (Errorf "error when try to loading tracked files"
                   (ErrNotExist registry_path))).
Proof. apply update_without_registry. reflexivity. Defined.

(** ** Loading the registry or rebuilding it by a scan *)

Lemma join_longer (dir name suffix : string) :
  filepath_Join dir name +:+ suffix <> name.
Proof.
  unfold filepath_Join. intros Heq.
  apply (f_equal list_ascii_of_string) in Heq.
  rewrite !bytes_append in Heq. apply (f_equal length) in Heq.
  rewrite !length_app in Heq. simpl in Heq. lia.
Qed.

Lemma join_ne (dir name : string) : filepath_Join dir name <> name.
Proof.
  unfold filepath_Join. intros Heq.
  apply (f_equal list_ascii_of_string) in Heq.
  rewrite !bytes_append in Heq. apply (f_equal length) in Heq.
  rewrite !length_app in Heq. simpl in Heq. lia.
Qed.

Section LoadOrScan.
Context `{!Compressor, !Tracker.Json}.
Context {V : Type}.
Variable Hasher : string -> string.
Variable GetTracker : Result (gmap string V).
Variable Getwd : Result string.
Variable Lstat : string -> Result DirEntry.
Import Tracker.

(** When the file exists, the scan is not run: the registry is loaded. *)
Lemma loadOrScan_present filePath w :
  is_Some (files w !! filePath) ->
  loadOrScanTrackedFiles Hasher GetTracker Getwd Lstat filePath w
  = LoadTrackedFilesFromFile filePath w.
Proof.
  intros Hsome. unfold loadOrScanTrackedFiles, FileExists. run.
  by rewrite bool_decide_true.
Qed.

(** X9: when there is no file at [filePath], the registry built by the scan is
    saved under [filepath.Join(QweDir, filePath)], not at [filePath]:
    [Save] joins the control directory to a path that has it already.
    Whatever the outcome there is still no file at [filePath] afterwards, so
    the next call scans again; on success the registry returned is the one
    of the scan. *)
Theorem loadOrScan_saves_elsewhere filePath w :
  files w !! filePath = None ->
  let r := loadOrScanTrackedFiles Hasher GetTracker Getwd Lstat filePath w in
  let target := filepath_Join QweDir filePath in
  files r.1 !! filePath = None
  /\ touches_only [target; target +:+ ".tmp"] w r.1
  /\ (forall tf, r.2 = Ok tf ->
        exists dir bytes,
          Getwd = Ok dir
          /\ findTrackedFilesInCurrDir Hasher GetTracker dir (Lstat dir) = Ok tf
          /\ json_MarshalIndent tf = Ok bytes
          /\ files r.1 !! target = Some (gz bytes)).
Proof.
  intros Hno r target.
  assert (Hframe : forall w', touches_only [target; target +:+ ".tmp"] w w'
                              -> files w' !! filePath = None).
  { intros w' [Hf _]. rewrite Hf; [done|].
    intros Hin. apply elem_of_cons in Hin as [Heq|Hin].
    - by apply (join_ne QweDir filePath).
    - apply list_elem_of_singleton in Hin.
      by apply (join_longer QweDir filePath ".tmp"). }
  subst r. unfold loadOrScanTrackedFiles, FileExists, lift. run.
  rewrite Hno. rewrite bool_decide_false by (by intros [x Hx]). simpl.
  destruct Getwd as [dir|e]; simpl.
  2:{ split; [done|]. split; [apply touches_only_refl | done]. }
  destruct (findTrackedFilesInCurrDir Hasher GetTracker dir (Lstat dir))
    as [tf|e] eqn:Hscan; simpl.
  2:{ split; [done|]. split; [apply touches_only_refl | done]. }
  pose proof (save_frame tf filePath w) as Htouch.
  destruct (Save tf filePath w) as [w' [[]|e]] eqn:Hsave; simpl in *.
  - split; [by apply Hframe|]. split; [done|].
    intros tf' [= <-].
    destruct (save_ok_inv _ _ _ _ Hsave) as (bytes & Hm & Hfile & _).
    by exists dir, bytes.
  - split; [by apply Hframe|]. split; [done|]. done.
Qed.

End LoadOrScan.

Lemma loadOrScan_saves_elsewhere_witness :
  let r := Tracker.loadOrScanTrackedFiles sample_hasher (Ok sample_tracker)
             (Ok "/proj") (fun _ => Ok sample_tree) registry_path fresh in
  let target := filepath_Join Tracker.QweDir registry_path in
  files r.1 !! registry_path = None
  /\ touches_only [target; target +:+ ".tmp"] fresh r.1
  /\ (forall tf, r.2 = Ok tf ->
        exists dir bytes,
          Ok "/proj" = Ok dir
          /\ Tracker.findTrackedFilesInCurrDir sample_hasher (Ok sample_tracker)
               dir (Ok sample_tree) = Ok tf
          /\ Tracker.json_MarshalIndent tf = Ok bytes
          /\ files r.1 !! target = Some (gz bytes)).
Proof.
  apply (loadOrScan_saves_elsewhere sample_hasher (Ok sample_tracker)
           (Ok "/proj") (fun _ => Ok sample_tree) registry_path fresh).
  reflexivity.
Defined.

(** On the sample tree the rebuilt registry is returned and lands in
    [.qwe/.qwe/_track_files.qwe]. *)
Example loadOrScan_sample :
  let r := Tracker.loadOrScanTrackedFiles sample_hasher (Ok sample_tracker)
             (Ok "/proj") (fun _ => Ok sample_tree) registry_path fresh in
  r.2 = Ok {[ "#main.go" := Tracker.NewTrackFile "/proj/src/main.go" ]}
  /\ is_Some (files r.1 !! ".qwe/.qwe/_track_files.qwe")
  /\ files r.1 !! ".qwe/_track_files.qwe" = None.
Proof. vm_compute. repeat split. by eexists. Qed.

(** ** The scan: what the walk records *)

Section WalkCalls.
Context {S : Type}.
Variable fn : WalkDirFunc (S := S).

(** [Q s new s']: the calls [new] of the callback took the state [s] to
    [s']. *)
Variable Q : S -> list Visit -> S -> Prop.
Hypothesis Q_refl : forall s, Q s [] s.
Hypothesis Q_trans :
  forall s0 s1 s2 new1 new2,
    Q s0 new1 s1 -> Q s1 new2 s2 -> Q s0 (new1 ++ new2) s2.
Hypothesis Q_call :
  forall above path d err s,
    walk_call d err -> Q s [mkVisit above path d] (fn path d err s).1.

Lemma call_calls above path d err st st' r :
  walk_call d err ->
  call fn above path d err st = (st', r) ->
  st'.2 = st.2 ++ [mkVisit above path d] /\ Q st.1 [mkVisit above path d] st'.1.
Proof.
  intros Hcallable. unfold call.
  pose proof (Q_call above path d err st.1 Hcallable) as HQ.
  destruct (fn path d err st.1) as [s r']. intros [= <- <-]. by split.
Qed.

Lemma calls_trans st0 st1 st2 new1 new2 :
  st1.2 = st0.2 ++ new1 -> Q st0.1 new1 st1.1 ->
  st2.2 = st1.2 ++ new2 -> Q st1.1 new2 st2.1 ->
  st2.2 = st0.2 ++ (new1 ++ new2) /\ Q st0.1 (new1 ++ new2) st2.1.
Proof.
  intros H1 Q1 H2 Q2. split; [by rewrite H2, H1, app_assoc | by eapply Q_trans].
Qed.

Lemma walkEntries_calls (walk : string -> DirEntry -> S * list Visit
                                  -> (S * list Visit) * option error) path dirs :
  Forall (fun d => forall path st st' r,
            walk path d st = (st', r) ->
            exists new, st'.2 = st.2 ++ new /\ Q st.1 new st'.1) dirs ->
  forall st st' r,
    walkEntries walk path dirs st = (st', r) ->
    exists new, st'.2 = st.2 ++ new /\ Q st.1 new st'.1.
Proof.
  induction 1 as [|d1 rest Hd1 _ IH]; intros st st' r Hloop; simpl in Hloop.
  - injection Hloop as <- _. exists []. by rewrite app_nil_r.
  - destruct (walk (filepath_Join path (Name d1)) d1 st) as [st1 [err|]] eqn:Hwalk.
    + assert (st' = st1) as ->
        by (by destruct (bool_decide (err = SkipDir)); injection Hloop).
      by eapply Hd1.
    + destruct (Hd1 _ _ _ _ Hwalk) as (new1 & Hlog1 & HQ1).
      destruct (IH _ _ _ Hloop) as (new2 & Hlog2 & HQ2).
      exists (new1 ++ new2). by eapply calls_trans.
Qed.

(** The state a walk ends in is the state its calls produce. *)
Lemma walkDir_calls d :
  forall above path st st' r,
    walkDir fn above path d st = (st', r) ->
    exists new, st'.2 = st.2 ++ new /\ Q st.1 new st'.1.
Proof.
  induction d as [name|name readErr dirs IH] using DirEntry_tree_ind;
    intros above path st st' r Hwalk; simpl in Hwalk.
  - destruct (call fn above path (Some (File name)) None st) as [st1 r1] eqn:Hcall.
    apply call_calls in Hcall as [Hlog HQ]; [|done].
    assert (st' = st1) as ->.
    { destruct r1 as [err|]; [|by injection Hwalk].
      rewrite andb_false_r in Hwalk. by injection Hwalk. }
    by eexists.
  - destruct (call fn above path (Some (Dir name readErr dirs)) None st)
      as [st1 r1] eqn:Hcall.
    apply call_calls in Hcall as [Hlog1 HQ1]; [|done].
    assert (Hloop : forall st1' st'' r',
              walkEntries (walkDir fn (above ++ [name])) path dirs st1' = (st'', r') ->
              exists new, st''.2 = st1'.2 ++ new /\ Q st1'.1 new st''.1).
    { apply walkEntries_calls. eapply Forall_impl; [exact IH|].
      intros d Hd path' st0 st0' r0. apply Hd. }
    destruct r1 as [err|].
    { assert (st' = st1) as ->
        by (by destruct (bool_decide (err = SkipDir) && true); injection Hwalk).
      by eexists. }
    destruct readErr as [e|].
    + destruct (call fn above path (Some (Dir name (Some e) dirs)) (Some e) st1)
        as [st2 r2] eqn:Hcall2.
      apply call_calls in Hcall2 as [Hlog2 HQ2]; [|done].
      destruct (calls_trans _ _ _ _ _ Hlog1 HQ1 Hlog2 HQ2) as [Hlog12 HQ12].
      destruct r2 as [err|].
      { assert (st' = st2) as ->
          by (by destruct (bool_decide (err = SkipDir)); injection Hwalk).
        by eexists. }
      destruct (Hloop _ _ _ Hwalk) as (new3 & Hlog3 & HQ3).
      eexists. by eapply calls_trans.
    + destruct (Hloop _ _ _ Hwalk) as (new3 & Hlog3 & HQ3).
      eexists. by eapply calls_trans.
Qed.

Lemma WalkDir_calls root lstat s s' visits r :
  WalkDir fn root lstat s = ((s', visits), r) -> Q s visits s'.
Proof.
  unfold WalkDir. intros Hwalk.
  destruct lstat as [info|e].
  - destruct (walkDir fn [] root info (s, [])) as [st' r'] eqn:Hw.
    assert (st' = (s', visits)) as ->.
    { destruct r' as [[]|]; by injection Hwalk. }
    destruct (walkDir_calls _ _ _ _ _ _ Hw) as (new & Hlog & HQ).
    simpl in Hlog. by subst new.
  - destruct (call fn [] root None (Some e) (s, [])) as [st' r'] eqn:Hc.
    assert (st' = (s', visits)) as ->.
    { destruct r' as [[]|]; by injection Hwalk. }
    apply call_calls in Hc as [Hlog HQ]; [|done]. simpl in Hlog. by rewrite Hlog.
Qed.

End WalkCalls.

Section ScanFold.
Context {V : Type}.
Variable Hasher : string -> string.
Variable tracker : gmap string V.
Import Tracker.

(** The registry after a walk is the registry before it with the records of
    the visited files assigned in the order of the visits. *)
Lemma WalkDir_fold root lstat s s' visits r :
  WalkDir (scanFn Hasher tracker) root lstat s = ((s', visits), r) ->
  s' = foldl (assign Hasher tracker) s visits.
Proof.
  apply (WalkDir_calls (scanFn Hasher tracker)
           (fun s new s' => s' = foldl (assign Hasher tracker) s new)).
  - done.
  - intros s0 s1 s2 new1 new2 -> ->. by rewrite foldl_app.
  - intros above path d err s0 Hcallable. simpl.
    unfold scanFn, assign. simpl.
    destruct d as [[name|name readErr dirs]|], err as [e|]; simpl; try done.
    + by destruct (tracker !! Hasher name).
    + by destruct (os_IsPermission e).
    + by destruct (isExcludedDir name).
    + by destruct (os_IsPermission e).
Qed.

Lemma assign_other s v id :
  (forall name, v_entry v = Some (File name) -> Hasher name <> id) ->
  assign Hasher tracker s v !! id = s !! id.
Proof.
  intros Hother. unfold assign.
  destruct (v_entry v) as [[name|name readErr dirs]|]; try done.
  destruct (tracker !! Hasher name); [|done].
  apply lookup_insert_ne. by apply Hother.
Qed.

Lemma fold_assign_other s l id :
  (forall v name, v ∈ l -> v_entry v = Some (File name) -> Hasher name <> id) ->
  foldl (assign Hasher tracker) s l !! id = s !! id.
Proof.
  revert s. induction l as [|v l IH]; intros s Hother; [done|]. simpl.
  rewrite IH.
  - apply assign_other. intros name. apply Hother, list_elem_of_here.
  - intros v' name Hin. apply Hother. by apply list_elem_of_further.
Qed.

Lemma assign_known s v name :
  v_entry v = Some (File name) -> is_Some (tracker !! Hasher name) ->
  assign Hasher tracker s v !! Hasher name = Some (NewTrackFile (v_path v)).
Proof.
  intros Hfile [info Hknown]. unfold assign. rewrite Hfile, Hknown.
  apply lookup_insert_eq.
Qed.

(** Every record made by assignments is a record and not nil, under an
    identifier the tracker knows. *)
Lemma fold_assign_known s l :
  (forall id x, s !! id = Some x -> is_Some (tracker !! id) /\ is_Some x) ->
  forall id x,
    foldl (assign Hasher tracker) s l !! id = Some x ->
    is_Some (tracker !! id) /\ is_Some x.
Proof.
  revert s. induction l as [|v l IH]; intros s Hs; [done|]. simpl.
  apply IH. intros id x. unfold assign.
  destruct (v_entry v) as [[name|name readErr dirs]|]; try apply Hs.
  destruct (tracker !! Hasher name) as [info|] eqn:Hknown; [|apply Hs].
  destruct (decide (Hasher name = id)) as [<-|Hne].
  - rewrite lookup_insert_eq. intros [= <-]. split; [by eexists | by eexists].
  - rewrite lookup_insert_ne by done. apply Hs.
Qed.

(** A file that was visited and whose identifier the tracker knows has a
    record, with the path of some visited file. *)
Lemma fold_assign_present s l v name :
  v ∈ l -> v_entry v = Some (File name) -> is_Some (tracker !! Hasher name) ->
  exists path, foldl (assign Hasher tracker) s l !! Hasher name = Some (NewTrackFile path).
Proof.
  intros Hin Hfile Hknown. revert s.
  induction l as [|v' l IH] using rev_ind; intros s.
  { by apply elem_of_nil in Hin. }
  rewrite foldl_app. simpl.
  apply elem_of_app in Hin as [Hin|Hin].
  - destruct (IH Hin s) as [path Hpath].
    unfold assign at 1.
    destruct (v_entry v') as [[name'|name' readErr dirs]|]; try by eexists.
    destruct (tracker !! Hasher name') as [info|]; [|by eexists].
    destruct (decide (Hasher name' = Hasher name)) as [->|Hne].
    + rewrite lookup_insert_eq. by eexists.
    + rewrite lookup_insert_ne by done. by eexists.
  - apply list_elem_of_singleton in Hin as ->.
    rewrite (assign_known _ _ _ Hfile Hknown). by eexists.
Qed.

End ScanFold.

(** The registry a scan returns is the empty registry with a record
    assigned, in the order of the walk, for each visited file whose
    identifier the tracker knows. *)
Lemma scan_fold {V : Type} (Hasher : string -> string) (tracker : gmap string V)
    dir lstat tf :
  Tracker.findTrackedFilesInCurrDir Hasher (Ok tracker) dir lstat = Ok tf ->
  tf = foldl (assign Hasher tracker) ∅
         (Tracker.scanCurrDir Hasher (Ok tracker) dir lstat).2.
Proof.
  unfold Tracker.findTrackedFilesInCurrDir, Tracker.scanCurrDir.
  destruct (WalkDir (Tracker.scanFn Hasher tracker) dir lstat ∅)
    as [[s visits] r] eqn:Hwalk.
  apply WalkDir_fold in Hwalk.
  destruct r as [err|]; simpl; [done|]. by intros [= <-].
Qed.

(** X10: the registry of a scan holds records only under identifiers that the
    tracker knows, and none of them is nil. *)
Theorem scan_records_known_ids {V : Type} (Hasher : string -> string)
    (tracker : gmap string V) (dir : string) (lstat : Result DirEntry)
    (tf : Tracker.TrackFiles) :
  Tracker.findTrackedFilesInCurrDir Hasher (Ok tracker) dir lstat = Ok tf ->
  forall id x, tf !! id = Some x -> is_Some (tracker !! id) /\ is_Some x.
Proof.
  intros Hscan. rewrite (scan_fold _ _ _ _ _ Hscan).
  apply fold_assign_known. intros id x Hx. by rewrite lookup_empty in Hx.
Qed.

Lemma scan_records_known_ids_witness :
  is_Some (sample_tracker !! "#main.go")
  /\ is_Some (Tracker.NewTrackFile "/proj/src/main.go").
Proof.
  apply (scan_records_known_ids sample_hasher sample_tracker "/proj" (Ok sample_tree)
           {[ "#main.go" := Tracker.NewTrackFile "/proj/src/main.go" ]}).
  - vm_compute. reflexivity.
  - vm_compute. reflexivity.
Defined.

(** X11: when files with the same identifier are visited, the registry holds the
    path of the one visited last. *)
Theorem scan_last_wins {V : Type} (Hasher : string -> string)
    (tracker : gmap string V) (dir : string) (lstat : Result DirEntry)
    (tf : Tracker.TrackFiles) (before after : list Visit) (v : Visit)
    (name : string) :
  Tracker.scanCurrDir Hasher (Ok tracker) dir lstat = (Ok tf, before ++ v :: after) ->
  v_entry v = Some (File name) ->
  is_Some (tracker !! Hasher name) ->
  (forall v' name', v' ∈ after -> v_entry v' = Some (File name') ->
                    Hasher name' <> Hasher name) ->
  tf !! Hasher name = Some (Tracker.NewTrackFile (v_path v)).
Proof.
  intros Hscan Hfile Hknown Hafter.
  assert (Hres : Tracker.findTrackedFilesInCurrDir Hasher (Ok tracker) dir lstat = Ok tf)
    by (unfold Tracker.findTrackedFilesInCurrDir; by rewrite Hscan).
  rewrite (scan_fold _ _ _ _ _ Hres), Hscan. simpl.
  rewrite foldl_app. simpl.
  rewrite fold_assign_other by done.
  by apply assign_known.
Qed.

Lemma scan_last_wins_witness :
  ({[ "#main.go" := Tracker.NewTrackFile "/proj/b/main.go" ]} : Tracker.TrackFiles)
    !! sample_hasher "main.go"
  = Some (Tracker.NewTrackFile "/proj/b/main.go").
Proof.
  apply (scan_last_wins sample_hasher sample_tracker "/proj" (Ok twin_tree)
           {[ "#main.go" := Tracker.NewTrackFile "/proj/b/main.go" ]}
           [ mkVisit [] "/proj" (Some twin_tree);
             mkVisit ["proj"] "/proj/a" (Some (Dir "a" None [File "main.go"]));
             mkVisit ["proj"; "a"] "/proj/a/main.go" (Some (File "main.go"));
             mkVisit ["proj"] "/proj/b" (Some (Dir "b" None [File "main.go"])) ]
           []
           (mkVisit ["proj"; "b"] "/proj/b/main.go" (Some (File "main.go")))
           "main.go").
  - vm_compute. reflexivity.
  - reflexivity.
  - vm_compute. by eexists.
  - intros v' name' Hin. by apply elem_of_nil in Hin.
Defined.

(** ** The scan: which entries it reaches and when it fails *)

Lemma nodes_above d :
  forall above path v, v ∈ nodes above path d -> exists rest, v_above v = above ++ rest.
Proof.
  induction d as [name|name readErr dirs IH] using DirEntry_tree_ind;
    intros above path v Hv; simpl in Hv.
  - apply list_elem_of_singleton in Hv as ->. exists []. by rewrite app_nil_r.
  - apply elem_of_cons in Hv as [->|Hv].
    { exists []. by rewrite app_nil_r. }
    apply list_elem_of_In, in_flat_map in Hv as (d1 & Hd1 & Hv).
    apply list_elem_of_In in Hd1, Hv.
    rewrite Forall_forall in IH.
    destruct (IH d1 Hd1 _ _ _ Hv) as [rest Hrest].
    exists (name :: rest). by rewrite Hrest, <- app_assoc.
Qed.

Section ScanReach.
Context {V : Type}.
Variable Hasher : string -> string.
Variable tracker : gmap string V.
Import Tracker.

#[local] Abbreviation scan := (scanFn Hasher tracker).

Lemma call_entry above path d st :
  call scan above path (Some d) None st
  = ((assign Hasher tracker st.1 (mkVisit above path (Some d)),
      st.2 ++ [mkVisit above path (Some d)]),
     if IsDir d && isExcludedDir (Name d) then Some SkipDir else None).
Proof.
  unfold call, scanFn, assign. simpl.
  destruct d as [name|name readErr dirs]; simpl.
  - by destruct (tracker !! Hasher name).
  - by destruct (isExcludedDir name).
Qed.

Lemma call_read_error above path d e st :
  call scan above path (Some d) (Some e) st
  = ((st.1, st.2 ++ [mkVisit above path (Some d)]),
     if os_IsPermission e then None else Some e).
Proof. unfold call, scanFn. simpl. by destruct (os_IsPermission e). Qed.

Lemma walkEntries_complete above name path dirs :
  Forall (fun d => forall above path st st' r,
            fatal_free d = true ->
            walkDir scan above path d st = (st', r) ->
            r = None /\ st.2 ⊆ st'.2 /\ reached above path d st'.2) dirs ->
  forallb fatal_free dirs = true ->
  forall st st' r,
    walkEntries (walkDir scan (above ++ [name])) path dirs st = (st', r) ->
    r = None /\ st.2 ⊆ st'.2
    /\ forall d1, d1 ∈ dirs ->
         reached (above ++ [name]) (filepath_Join path (Name d1)) d1 st'.2.
Proof.
  induction 1 as [|d1 rest Hd1 _ IH]; intros Hfree st st' r Hloop;
    simpl in Hloop, Hfree.
  - injection Hloop as <- <-. split; [done|]. split; [done|].
    intros d1 Hin. by apply elem_of_nil in Hin.
  - apply andb_true_iff in Hfree as [Hfree1 Hfree].
    destruct (walkDir scan (above ++ [name]) (filepath_Join path (Name d1)) d1 st)
      as [st1 r1] eqn:Hwalk.
    destruct (Hd1 _ _ _ _ _ Hfree1 Hwalk) as (-> & Hsub1 & Hreach1).
    destruct (IH Hfree _ _ _ Hloop) as (-> & Hsub2 & Hreach2).
    split; [done|]. split; [by etrans|].
    intros d Hin. apply elem_of_cons in Hin as [->|Hin]; [|by apply Hreach2].
    intros v Hv Hclear. by apply Hsub2, Hreach1.
Qed.

(** In a tree without fatal read errors the walk runs to its end and reaches
    every entry that has no excluded directory above it. *)
Lemma walkDir_complete d :
  forall above path st st' r,
    fatal_free d = true ->
    walkDir scan above path d st = (st', r) ->
    r = None /\ st.2 ⊆ st'.2 /\ reached above path d st'.2.
Proof.
  induction d as [name|name readErr dirs IH] using DirEntry_tree_ind;
    intros above path st st' r Hfree Hwalk; simpl in Hwalk.
  - rewrite call_entry in Hwalk. simpl in Hwalk. injection Hwalk as <- <-.
    split; [done|]. simpl. split.
    + intros v Hv. apply elem_of_app. by left.
    + intros v Hv _. apply list_elem_of_singleton in Hv as ->.
      apply elem_of_app. right. apply list_elem_of_here.
  - rewrite call_entry in Hwalk. simpl in Hwalk, Hfree.
    set (top := mkVisit above path (Some (Dir name readErr dirs))) in *.
    destruct (isExcludedDir name) eqn:Hex; simpl in Hwalk.
    { injection Hwalk as <- <-. split; [done|]. simpl. split.
      - intros v Hv. apply elem_of_app. by left.
      - intros v Hv Hclear. simpl in Hv. apply elem_of_cons in Hv as [->|Hv].
        { apply elem_of_app. right. apply list_elem_of_here. }
        exfalso.
        apply list_elem_of_In, in_flat_map in Hv as (d1 & _ & Hv).
        apply list_elem_of_In, nodes_above in Hv as [rest Hrest].
        unfold clear_above in Hclear. rewrite Hrest in Hclear.
        apply Forall_app in Hclear as [Hclear _].
        apply Forall_app in Hclear as [_ Hclear].
        rewrite Forall_singleton in Hclear. congruence. }
    simpl in Hfree. apply andb_true_iff in Hfree as [Hread Hfree].
    assert (Hloop : forall st0 st0' r0,
              top ∈ st0.2 ->
              walkEntries (walkDir scan (above ++ [name])) path dirs st0 = (st0', r0) ->
              r0 = None /\ st0.2 ⊆ st0'.2
              /\ reached above path (Dir name readErr dirs) st0'.2).
    { intros st0 st0' r0 Htop Hloop.
      destruct (walkEntries_complete above name path dirs IH Hfree _ _ _ Hloop)
        as (-> & Hsub & Hreach).
      split; [done|]. split; [done|].
      intros v Hv Hclear. simpl in Hv. apply elem_of_cons in Hv as [->|Hv].
      { by apply Hsub. }
      apply list_elem_of_In, in_flat_map in Hv as (d1 & Hd1 & Hv).
      apply list_elem_of_In in Hd1, Hv. by apply (Hreach d1 Hd1). }
    destruct readErr as [e|].
    + rewrite call_read_error in Hwalk. rewrite Hread in Hwalk. simpl in Hwalk.
      apply Hloop in Hwalk as (-> & Hsub & Hreach); [|simpl; rewrite ?elem_of_app, ?list_elem_of_singleton; auto].
      split; [done|]. split; [|done].
      intros v Hv. apply Hsub. simpl. rewrite ?elem_of_app; auto.
    + apply Hloop in Hwalk as (-> & Hsub & Hreach); [|simpl; rewrite ?elem_of_app, ?list_elem_of_singleton; auto].
      split; [done|]. split; [|done].
      intros v Hv. apply Hsub. simpl. rewrite ?elem_of_app; auto.
Qed.



End ScanReach.

(** X12: a scan of a tree in which no directory that it enters fails to be read
    (permission errors apart) returns a registry; it visits every entry of
    the tree that has no excluded directory above it, and every such file
    whose identifier the tracker knows has a record. *)
Theorem scan_complete {V : Type} (Hasher : string -> string)
    (tracker : gmap string V) (dir : string) (root : DirEntry) :
  fatal_free root = true ->
  exists tf,
    Tracker.findTrackedFilesInCurrDir Hasher (Ok tracker) dir (Ok root) = Ok tf
    /\ forall v, v ∈ nodes [] dir root -> clear_above v ->
         v ∈ (Tracker.scanCurrDir Hasher (Ok tracker) dir (Ok root)).2
         /\ forall name,
              v_entry v = Some (File name) -> is_Some (tracker !! Hasher name) ->
              exists path, tf !! Hasher name = Some (Tracker.NewTrackFile path).
Proof.
  intros Hfree.
  unfold Tracker.findTrackedFilesInCurrDir.
  destruct (Tracker.scanCurrDir Hasher (Ok tracker) dir (Ok root)) as [res visits] eqn:Hscan.
  assert (Hall : exists tf, res = Ok tf
                   /\ forall v, v ∈ nodes [] dir root -> clear_above v -> v ∈ visits).
  { unfold Tracker.scanCurrDir, WalkDir in Hscan.
    destruct (walkDir (Tracker.scanFn Hasher tracker) [] dir root (∅, []))
      as [[s log] r] eqn:Hwalk.
    destruct (walkDir_complete Hasher tracker root _ _ _ _ _ Hfree Hwalk)
      as (-> & _ & Hreach).
    injection Hscan as <- <-. by exists s. }
  destruct Hall as (tf & -> & Hvisited).
  exists tf. split; [done|].
  intros v Hv Hclear. simpl. split; [by apply Hvisited|].
  intros name Hfile Hknown.
  assert (Hres : Tracker.findTrackedFilesInCurrDir Hasher (Ok tracker) dir (Ok root) = Ok tf)
    by (unfold Tracker.findTrackedFilesInCurrDir; by rewrite Hscan).
  rewrite (scan_fold _ _ _ _ _ Hres), Hscan. simpl.
  eapply fold_assign_present; [by apply Hvisited | done | done].
Qed.

Lemma scan_complete_witness :
  exists tf,
    Tracker.findTrackedFilesInCurrDir sample_hasher (Ok sample_tracker) "/proj"
      (Ok sample_tree) = Ok tf
    /\ forall v, v ∈ nodes [] "/proj" sample_tree -> clear_above v ->
         v ∈ (Tracker.scanCurrDir sample_hasher (Ok sample_tracker) "/proj"
                (Ok sample_tree)).2
         /\ forall name,
              v_entry v = Some (File name) ->
              is_Some (sample_tracker !! sample_hasher name) ->
              exists path, tf !! sample_hasher name = Some (Tracker.NewTrackFile path).
Proof.
  apply (scan_complete sample_hasher sample_tracker "/proj" sample_tree).
  reflexivity.
Defined.



(** On the tree whose "src" directory lacks the permission, the file that
    [os.ReadDir] returned before the error is still recorded. *)
Example scan_guarded_tree :
  Tracker.findTrackedFilesInCurrDir sample_hasher (Ok sample_tracker) "/proj"
    (Ok guarded_tree)
  = Ok {[ "#main.go" := Tracker.NewTrackFile "/proj/src/main.go" ]}
  /\ Tracker.findTrackedFilesInCurrDir sample_hasher (Ok sample_tracker) "/proj"
       (Ok failing_tree)
     = Err (ErrIO "/proj/src").
Proof. vm_compute. by split. Qed.

(** ** The two scans *)

Section WalkSimulation.
Context {S1 S2 : Type}.
Variable fn1 : WalkDirFunc (S := S1).
Variable fn2 : WalkDirFunc (S := S2).
Variable R : S1 -> S2 -> Prop.

(** The two callbacks take the same decisions and keep their states
    related. *)
Hypothesis callbacks_agree :
  forall path d err s1 s2,
    R s1 s2 ->
    R (fn1 path d err s1).1 (fn2 path d err s2).1
    /\ (fn1 path d err s1).2 = (fn2 path d err s2).2.

#[local] Abbreviation agree := (agree R).

Lemma call_agree above path d err st1 st2 :
  R st1.1 st2.1 -> st1.2 = st2.2 ->
  agree (call fn1 above path d err st1) (call fn2 above path d err st2).
Proof.
  intros HR Hlog. unfold call.
  destruct (callbacks_agree path d err st1.1 st2.1 HR) as [HR' Hr].
  destruct (fn1 path d err st1.1) as [s1 r1], (fn2 path d err st2.1) as [s2 r2].
  simpl in *. repeat split; [done | by rewrite Hlog | done].
Qed.

Lemma walkEntries_agree walk1 walk2 path dirs :
  Forall (fun d => forall path st1 st2,
            R st1.1 st2.1 -> st1.2 = st2.2 ->
            agree (walk1 path d st1) (walk2 path d st2)) dirs ->
  forall st1 st2,
    R st1.1 st2.1 -> st1.2 = st2.2 ->
    agree (walkEntries walk1 path dirs st1) (walkEntries walk2 path dirs st2).
Proof.
  induction 1 as [|d1 rest Hd1 _ IH]; intros st1 st2 HR Hlog; simpl.
  - by repeat split.
  - destruct (Hd1 (filepath_Join path (Name d1)) st1 st2 HR Hlog) as (HR' & Hlog' & Hr).
    destruct (walk1 (filepath_Join path (Name d1)) d1 st1) as [st1' r1].
    destruct (walk2 (filepath_Join path (Name d1)) d1 st2) as [st2' r2].
    simpl in *. subst r2.
    destruct r1 as [err|]; [|by apply IH].
    destruct (bool_decide (err = SkipDir)); by repeat split.
Qed.

Lemma walkDir_agree d :
  forall above path st1 st2,
    R st1.1 st2.1 -> st1.2 = st2.2 ->
    agree (walkDir fn1 above path d st1) (walkDir fn2 above path d st2).
Proof.
  induction d as [name|name readErr dirs IH] using DirEntry_tree_ind;
    intros above path st1 st2 HR Hlog; simpl.
  - destruct (call_agree above path (Some (File name)) None st1 st2 HR Hlog)
      as (HR' & Hlog' & Hr).
    destruct (call fn1 above path (Some (File name)) None st1) as [st1' r1].
    destruct (call fn2 above path (Some (File name)) None st2) as [st2' r2].
    simpl in *. subst r2.
    destruct r1 as [err|]; [|by repeat split].
    rewrite andb_false_r. by repeat split.
  - destruct (call_agree above path (Some (Dir name readErr dirs)) None st1 st2 HR Hlog)
      as (HR' & Hlog' & Hr).
    destruct (call fn1 above path (Some (Dir name readErr dirs)) None st1) as [st1' r1].
    destruct (call fn2 above path (Some (Dir name readErr dirs)) None st2) as [st2' r2].
    simpl in *. subst r2.
    assert (Hloop : forall st1 st2, R st1.1 st2.1 -> st1.2 = st2.2 ->
              agree (walkEntries (walkDir fn1 (above ++ [name])) path dirs st1)
                    (walkEntries (walkDir fn2 (above ++ [name])) path dirs st2)).
    { apply walkEntries_agree. eapply Forall_impl; [exact IH|].
      intros d Hd path' st1'' st2''. apply Hd. }
    destruct r1 as [err|].
    { destruct (bool_decide (err = SkipDir) && true); by repeat split. }
    destruct readErr as [e|]; [|by apply Hloop].
    destruct (call_agree above path (Some (Dir name (Some e) dirs)) (Some e)
                st1' st2' HR' Hlog') as (HR2 & Hlog2 & Hr2).
    destruct (call fn1 above path (Some (Dir name (Some e) dirs)) (Some e) st1')
      as [st1'' r1].
    destruct (call fn2 above path (Some (Dir name (Some e) dirs)) (Some e) st2')
      as [st2'' r2].
    simpl in *. subst r2.
    destruct r1 as [err|]; [|by apply Hloop].
    destruct (bool_decide (err = SkipDir)); by repeat split.
Qed.

Lemma WalkDir_agree root lstat s1 s2 :
  R s1 s2 -> agree (WalkDir fn1 root lstat s1) (WalkDir fn2 root lstat s2).
Proof.
  intros HR. unfold WalkDir.
  assert (Hin : agree
            match lstat with
            | Ok info => walkDir fn1 [] root info (s1, [])
            | Err e => call fn1 [] root None (Some e) (s1, [])
            end
            match lstat with
            | Ok info => walkDir fn2 [] root info (s2, [])
            | Err e => call fn2 [] root None (Some e) (s2, [])
            end).
  { destruct lstat as [info|e]; [by apply walkDir_agree | by apply call_agree]. }
  destruct (match lstat with
            | Ok info => walkDir fn1 [] root info (s1, [])
            | Err e => call fn1 [] root None (Some e) (s1, [])
            end) as [st1 r1].
  destruct (match lstat with
            | Ok info => walkDir fn2 [] root info (s2, [])
            | Err e => call fn2 [] root None (Some e) (s2, [])
            end) as [st2 r2].
  destruct Hin as (HR' & Hlog & Hr). simpl in *. subst r2.
  destruct r1 as [[]|]; by repeat split.
Qed.

End WalkSimulation.

(** X14: for the same tree and the same tracker, the scan of package display and
    the scan of package tracker present the same entries to their callbacks
    and end alike: both fail with the same error, or both return a registry,
    and the two registries hold the same identifiers with the same file
    paths. *)
Theorem display_scan_agrees {V Ver : Type} (Hasher : string -> string)
    (GetTracker : Result (gmap string V))
    (len_Versions : V -> nat) (CommitsCount : V -> Z) (LastVersion : V -> Ver)
    (CommitMessage TimeStamp : Ver -> string)
    (dir : string) (lstat : Result DirEntry) :
  let t := Tracker.scanCurrDir Hasher GetTracker dir lstat in
  let d := DisplayScan.scanCurrDir Hasher GetTracker len_Versions CommitsCount
             LastVersion CommitMessage TimeStamp dir lstat in
  t.2 = d.2
  /\ match t.1, d.1 with
     | Ok tf, Ok tfd => same_paths tf tfd
     | Err e, Err e' => e = e'
     | _, _ => False
     end.
Proof.
  unfold Tracker.scanCurrDir, DisplayScan.scanCurrDir.
  destruct GetTracker as [tracker|e]; [|done].
  pose proof (WalkDir_agree (Tracker.scanFn Hasher tracker)
                (DisplayScan.scanFn Hasher len_Versions CommitsCount LastVersion
                   CommitMessage TimeStamp tracker)
                same_paths) as Hagree.
  destruct (Hagree) with (root := dir) (lstat := lstat) (s1 := (∅ : Tracker.TrackFiles))
    (s2 := (∅ : DisplayScan.TrackFiles)) as (Hsame & Hlog & Hres).
  { intros path d err s1 s2 HR.
    unfold Tracker.scanFn, DisplayScan.scanFn.
    destruct err as [e|]; [by destruct (os_IsPermission e)|].
    destruct d as [[name|name readErr dirs]|]; simpl; try done.
    - destruct (tracker !! Hasher name) as [info|]; [|done].
      assert (Hins : forall x : DisplayScan.TrackFile, DisplayScan.FilePath x = path ->
                same_paths (<[Hasher name := Tracker.NewTrackFile path]> s1)
                           (<[Hasher name := Some x]> s2)).
      { intros x Hx id. destruct (decide (Hasher name = id)) as [<-|Hne].
        - rewrite !lookup_insert_eq. simpl. by rewrite Hx.
        - rewrite !lookup_insert_ne by done. apply HR. }
      destruct (len_Versions info =? 0)%nat; simpl; split; try done; by apply Hins.
    - change (DisplayScan.isExcludedDir name) with (Tracker.isExcludedDir name).
      by destruct (Tracker.isExcludedDir name). }
  { intros id. by rewrite !lookup_empty. }
  destruct (WalkDir (Tracker.scanFn Hasher tracker) dir lstat ∅) as [[s1 log1] r1].
  destruct (WalkDir (DisplayScan.scanFn Hasher len_Versions CommitsCount LastVersion
                       CommitMessage TimeStamp tracker) dir lstat ∅) as [[s2 log2] r2].
  simpl in *. subst r2 log2.
  by destruct r1.
Qed.

(** ** The tree of tracked files *)

Import Tracker.

Lemma insert_parts_skip p rest n :
  p = EmptyString -> insert_parts (p :: rest) n = insert_parts rest n.
Proof. by intros ->. Qed.

Lemma insert_parts_cons p rest name isFile children :
  p <> EmptyString ->
  insert_parts (p :: rest) (Node name isFile children)
  = Node name isFile
      (<[p := insert_parts rest (tip rest (child_of p children))]> children).
Proof.
  intros Hp. simpl.
  destruct (String.eqb_spec p EmptyString) as [->|_]; [done|].
  unfold tip, child_of. by destruct rest.
Qed.

Lemma mark_insert_parts parts n :
  mark_file (insert_parts parts n) = insert_parts parts (mark_file n).
Proof.
  revert n. induction parts as [|p rest IH]; intros n; [done|].
  destruct (decide (p = EmptyString)) as [Hp|Hp].
  - by rewrite !insert_parts_skip.
  - destruct n as [name isFile children].
    rewrite (insert_parts_cons p rest name isFile) by done.
    change (mark_file (Node name isFile children)) with (Node name true children).
    by rewrite insert_parts_cons.
Qed.

Lemma tip_insert_parts rest parts n :
  tip rest (insert_parts parts n) = insert_parts parts (tip rest n).
Proof. destruct rest; [apply mark_insert_parts | done]. Qed.

Lemma tip_tip rest rest' n : tip rest (tip rest' n) = tip rest' (tip rest n).
Proof. destruct rest, rest', n; done. Qed.

(** Two paths can be put into the tree in either order. *)
Lemma insert_parts_comm a :
  forall b n, insert_parts a (insert_parts b n) = insert_parts b (insert_parts a n).
Proof.
  induction a as [|p a IHa]; [done|].
  induction b as [|q b IHb]; intros n; [done|].
  destruct (decide (p = EmptyString)) as [Hp|Hp].
  { rewrite (insert_parts_skip p a) by done.
    rewrite (insert_parts_skip p a) by done. apply IHa. }
  destruct (decide (q = EmptyString)) as [Hq|Hq].
  { rewrite (insert_parts_skip q b) by done.
    rewrite (insert_parts_skip q b) by done. apply IHb. }
  destruct n as [name isFile children].
  rewrite (insert_parts_cons q b), (insert_parts_cons p a) by done.
  rewrite (insert_parts_cons p a), (insert_parts_cons q b) by done.
  f_equal. unfold child_of.
  destruct (decide (p = q)) as [<-|Hne].
  - rewrite !lookup_insert_eq, !insert_insert_eq. f_equal.
    rewrite !tip_insert_parts, IHa. by rewrite tip_tip.
  - rewrite !lookup_insert_ne by done. by apply insert_insert_ne.
Qed.

Lemma insert_records_perm ts ts' :
  ts ≡ₚ ts' -> forall root, insert_records ts root = insert_records ts' root.
Proof.
  induction 1 as [|t ts ts' _ IH|t1 t2 ts|ts1 ts2 ts3 _ IH1 _ IH2]; intros root.
  - done.
  - destruct t as [t|]; simpl; [apply IH | done].
  - destruct t1 as [t1|], t2 as [t2|]; simpl; try done.
    by rewrite insert_parts_comm.
  - by rewrite IH1.
Qed.

(** X16: [Print] prints the same lines, or panics alike, for every order in
    which the records of the registry are enumerated: the iteration order of
    the Go map does not show. *)
Theorem print_order_independent (tf : TrackFiles) (ts : list (option TrackFile)) :
  ts ≡ₚ (map_to_list tf).*2 -> print_records ts = Print tf.
Proof.
  intros Hperm. unfold Print, print_records.
  by rewrite (insert_records_perm _ _ Hperm).
Qed.

Lemma print_order_independent_witness :
  print_records (reverse (map_to_list (registry_of three_records)).*2)
  = Print (registry_of three_records).
Proof. apply print_order_independent. apply reverse_Permutation. Defined.

Lemma insert_records_nil ts :
  forall root,
    (None ∈ ts -> insert_records ts root = Err ErrNilDeref)
    /\ (None ∉ ts -> exists root', insert_records ts root = Ok root').
Proof.
  induction ts as [|[t|] ts IH]; intros root; simpl.
  - split; [by intros H%elem_of_nil | by eexists].
  - destruct (IH (insert_parts (split_slash (trim_dot_slash (FilePath t))) root))
      as [IH1 IH2].
    split.
    + intros Hin. apply IH1. by apply elem_of_cons in Hin as [|].
    + intros Hnot. apply IH2. intros Hin. apply Hnot. by apply list_elem_of_further.
  - split; [done|]. intros Hnot. exfalso. apply Hnot, list_elem_of_here.
Qed.

Lemma print_nil (tf : TrackFiles) id :
  tf !! id = Some None -> Print tf = Err ErrNilDeref.
Proof.
  intros Hid. unfold Print, print_records.
  destruct (insert_records_nil (map_to_list tf).*2 (Node "." false ∅)) as [Hnil _].
  rewrite Hnil; [done|].
  apply elem_of_map_to_list in Hid. by apply (list_elem_of_fmap_2 snd) in Hid.
Qed.

Lemma print_no_nil (tf : TrackFiles) :
  (forall id, tf !! id <> Some None) -> exists lines, Print tf = Ok ("." :: lines).
Proof.
  intros Hnone. unfold Print, print_records.
  destruct (insert_records_nil (map_to_list tf).*2 (Node "." false ∅)) as [_ Hok].
  destruct Hok as [root' ->]; [|by eexists].
  intros Hin. apply list_elem_of_fmap in Hin as ([id x] & Hx & Hin).
  simpl in Hx. subst x. apply elem_of_map_to_list in Hin. by apply (Hnone id).
Qed.

(** X17: [Print] panics exactly on a registry with a nil record, and then before
    it has printed anything; otherwise it prints lines, the first of which
    is ".". *)
Theorem print_panics_on_nil_only (tf : TrackFiles) :
  ((exists id, tf !! id = Some None) -> Print tf = Err ErrNilDeref)
  /\ ((forall id, tf !! id <> Some None) ->
      exists lines, Print tf = Ok ("." :: lines)).
Proof.
  split; [intros [id Hid]; by eapply print_nil | apply print_no_nil].
Qed.

Lemma print_panics_on_nil_only_witness :
  Print registry_with_nil = Err ErrNilDeref
  /\ exists lines, Print (registry_of three_records) = Ok ("." :: lines).
Proof.
  split.
  - apply (proj1 (print_panics_on_nil_only registry_with_nil)).
    exists "gone". vm_compute. reflexivity.
  - apply (proj2 (print_panics_on_nil_only (registry_of three_records))).
    intros id Hid.
    assert (Hin : (id, None) ∈ map_to_list (registry_of three_records))
      by (by apply elem_of_map_to_list).
    vm_compute in Hin.
    repeat (apply elem_of_cons in Hin as [Hin|Hin]; [discriminate Hin|]).
    by apply elem_of_nil in Hin.
Defined.

Lemma keyed_mark n : keyed n -> keyed (mark_file n).
Proof. intros [name isFile children Hkeyed]. by constructor. Qed.

Lemma keyed_tip rest n : keyed n -> keyed (tip rest n).
Proof. destruct rest; [apply keyed_mark | done]. Qed.

Lemma insert_parts_name parts n :
  node_name (insert_parts parts n) = node_name n.
Proof.
  revert n. induction parts as [|p rest IH]; intros n; [done|].
  destruct (decide (p = EmptyString)) as [Hp|Hp].
  - by rewrite insert_parts_skip.
  - destruct n as [name isFile children]. by rewrite insert_parts_cons.
Qed.

Lemma tip_name rest n : node_name (tip rest n) = node_name n.
Proof. by destruct rest, n. Qed.

Lemma child_of_keyed p children :
  (forall k child, children !! k = Some child -> node_name child = k /\ keyed child) ->
  node_name (child_of p children) = p /\ keyed (child_of p children).
Proof.
  intros Hkeyed. unfold child_of.
  destruct (children !! p) as [child|] eqn:Hchild; [by apply Hkeyed|].
  split; [done|]. constructor. intros k child Hk. by rewrite lookup_empty in Hk.
Qed.

(** Putting a path into a tree keeps every node named by its key. *)
Lemma keyed_insert_parts parts : forall n, keyed n -> keyed (insert_parts parts n).
Proof.
  induction parts as [|p rest IH]; intros n Hn; [done|].
  destruct (decide (p = EmptyString)) as [Hp|Hp].
  { rewrite insert_parts_skip by done. by apply IH. }
  destruct Hn as [name isFile children Hkeyed].
  rewrite insert_parts_cons by done. constructor. intros k child Hk.
  destruct (child_of_keyed p children Hkeyed) as [Hname Hchild].
  destruct (decide (p = k)) as [<-|Hne].
  - rewrite lookup_insert_eq in Hk. injection Hk as <-.
    split; [by rewrite insert_parts_name, tip_name|].
    by apply IH, keyed_tip.
  - rewrite lookup_insert_ne in Hk by done. by apply Hkeyed.
Qed.

Lemma file_at_mark keys name n :
  file_at keys name n -> file_at keys name (mark_file n).
Proof.
  intros (n' & Hdesc & Hfile & Hname). destruct keys as [|k keys].
  - injection Hdesc as <-. exists (mark_file n). by destruct n.
  - exists n'. by destruct n.
Qed.

Lemma file_at_tip rest keys name n :
  file_at keys name n -> file_at keys name (tip rest n).
Proof. destruct rest; [apply file_at_mark | done]. Qed.

(** A file that is in the tree stays in it when another path is put in. *)
Lemma file_at_insert_parts parts :
  forall keys name n,
    file_at keys name n -> file_at keys name (insert_parts parts n).
Proof.
  induction parts as [|p rest IH]; intros keys name n Hat; [done|].
  destruct (decide (p = EmptyString)) as [Hp|Hp].
  { rewrite insert_parts_skip by done. by apply IH. }
  destruct n as [nm isFile children]. rewrite insert_parts_cons by done.
  destruct Hat as (n' & Hdesc & Hfile & Hname).
  destruct keys as [|k keys].
  { injection Hdesc as <-. by eexists. }
  simpl in Hdesc.
  destruct (children !! k) as [child|] eqn:Hchild; [|done].
  destruct (decide (p = k)) as [<-|Hne].
  - assert (Hsub : file_at keys name
                     (insert_parts rest (tip rest (child_of p children)))).
    { apply IH, file_at_tip. unfold child_of. rewrite Hchild. by exists n'. }
    destruct Hsub as (n'' & Hdesc' & Hfile' & Hname').
    exists n''. simpl. by rewrite lookup_insert_eq.
  - exists n'. simpl. by rewrite lookup_insert_ne, Hchild.
Qed.

Lemma last_cons_cons {A : Type} (x y : A) l : last (x :: y :: l) = last (y :: l).
Proof. done. Qed.

(** A path whose last part is not empty puts a file of that name into the
    tree, under its non-empty parts. *)
Lemma insert_parts_file parts :
  forall n name,
    keyed n -> last parts = Some name -> name <> EmptyString ->
    file_at (components parts) name (insert_parts parts n).
Proof.
  induction parts as [|p rest IH]; intros n name Hn Hlast Hname; [done|].
  destruct rest as [|p' rest].
  - injection Hlast as ->. destruct Hn as [nm isFile children Hkeyed].
    rewrite insert_parts_cons by done. unfold components. simpl.
    destruct (String.eqb_spec name EmptyString) as [|_]; [done|]. simpl.
    destruct (child_of_keyed name children Hkeyed) as [Hnm _].
    exists (mark_file (child_of name children)). simpl. rewrite lookup_insert_eq.
    split; [done|]. by destruct (child_of name children).
  - rewrite last_cons_cons in Hlast.
    destruct (decide (p = EmptyString)) as [Hp|Hp].
    { rewrite insert_parts_skip by done. subst p. by apply IH. }
    destruct Hn as [nm isFile children Hkeyed].
    rewrite insert_parts_cons by done.
    destruct (child_of_keyed p children Hkeyed) as [_ Hchild].
    destruct (IH (child_of p children) name Hchild Hlast Hname)
      as (n' & Hdesc & Hfile & Hnm).
    exists n'. split; [|done].
    change (components (p :: p' :: rest))
      with (if negb (String.eqb p EmptyString) then p :: components (p' :: rest)
            else components (p' :: rest)).
    destruct (String.eqb_spec p EmptyString) as [|_]; [done|]. simpl.
    by rewrite lookup_insert_eq.
Qed.

Lemma components_nonempty parts name :
  last parts = Some name -> name <> EmptyString ->
  exists k keys, components parts = k :: keys.
Proof.
  induction parts as [|p rest IH]; intros Hlast Hname; [done|].
  change (components (p :: rest))
    with (if negb (String.eqb p EmptyString) then p :: components rest
          else components rest).
  destruct (String.eqb_spec p EmptyString) as [->|_]; simpl; [|by eexists _, _].
  destruct rest as [|p' rest]; [by injection Hlast as <-|].
  by apply IH.
Qed.

Lemma insert_records_file_at ts :
  forall root root' keys name,
    insert_records ts root = Ok root' ->
    file_at keys name root -> file_at keys name root'.
Proof.
  induction ts as [|[t|] ts IH]; intros root root' keys name Hins Hat; simpl in Hins.
  - by injection Hins as <-.
  - eapply IH; [exact Hins|]. by apply file_at_insert_parts.
  - done.
Qed.

Lemma insert_records_keeps_file ts :
  forall root root' t name,
    keyed root -> insert_records ts root = Ok root' -> Some t ∈ ts ->
    last (split_slash (trim_dot_slash (FilePath t))) = Some name ->
    name <> EmptyString ->
    file_at (components (split_slash (trim_dot_slash (FilePath t)))) name root'.
Proof.
  induction ts as [|[t0|] ts IH]; intros root root' t name Hkeyed Hins Hin Hlast Hname;
    simpl in Hins.
  - by apply elem_of_nil in Hin.
  - apply elem_of_cons in Hin as [[= <-]|Hin].
    + eapply insert_records_file_at; [exact Hins|]. by apply insert_parts_file.
    + eapply IH; [|exact Hins|done..]. by apply keyed_insert_parts.
  - done.
Qed.

Lemma print_keys_elem (sub : gmap string (string -> bool -> list string))
    prefix keys k print :
  k ∈ keys -> sub !! k = Some print ->
  exists isLast, forall line,
    line ∈ print prefix isLast -> line ∈ print_keys sub prefix keys.
Proof.
  intros Hin Hsub. induction keys as [|k' keys IH]; [by apply elem_of_nil in Hin|].
  apply elem_of_cons in Hin as [<-|Hin].
  - simpl. rewrite Hsub. eexists. intros line Hline. apply elem_of_app. by left.
  - destruct (IH Hin) as [isLast Hsubset]. exists isLast.
    intros line Hline. simpl. apply elem_of_app. right. by apply Hsubset.
Qed.

Lemma sortKeys_elem {A : Type} (m : gmap string A) k x :
  m !! k = Some x -> k ∈ sortKeys m.
Proof.
  intros Hk. unfold sortKeys. rewrite merge_sort_Permutation.
  apply elem_of_map_to_list in Hk. by apply (list_elem_of_fmap_2 fst) in Hk.
Qed.

(** A file that is in the tree has its line among the lines printed for the
    children of the node it is below. *)
Lemma print_keys_file keys :
  forall n k name prefix,
    file_at (k :: keys) name n ->
    exists line,
      line ∈ print_keys (printNode <$> node_children n) prefix
               (sortKeys (node_children n))
      /\ shown_as_file name line.
Proof.
  induction keys as [|k' keys IH]; intros n k name prefix (n' & Hdesc & Hfile & Hname);
    simpl in Hdesc;
    destruct (node_children n !! k) as [child|] eqn:Hchild; try done;
    (destruct (print_keys_elem (printNode <$> node_children n) prefix
                 (sortKeys (node_children n)) k (printNode child))
       as [isLast Hsubset];
     [by eapply sortKeys_elem | by rewrite lookup_fmap, Hchild |]).
  - injection Hdesc as <-. destruct child as [nm isFile children].
    simpl in Hfile, Hname. subst.
    eexists. split; [apply Hsubset; simpl; apply list_elem_of_here|].
    by eexists _, _.
  - destruct (IH child k' name (if isLast then prefix +:+ "    " else prefix +:+ "│   "))
      as (line & Hline & Hshown).
    { by exists n'. }
    exists line. split; [|done]. apply Hsubset.
    destruct child as [nm isFile children]. simpl. by apply list_elem_of_further.
Qed.

(** X18: every record of the registry whose path does not end in a slash has its
    line in what [Print] prints: the line of a file, with the last part of
    the path as its name. *)
Theorem print_lists_every_file (tf : TrackFiles) (lines : list string)
    (id : string) (t : TrackFile) (name : string) :
  Print tf = Ok lines ->
  tf !! id = Some (Some t) ->
  last (split_slash (trim_dot_slash (FilePath t))) = Some name ->
  name <> EmptyString ->
  exists line, line ∈ lines /\ shown_as_file name line.
Proof.
  intros Hprint Hid Hlast Hname. unfold Print, print_records in Hprint.
  destruct (insert_records (map_to_list tf).*2 (Node "." false ∅)) as [root|e] eqn:Hins;
    [|done].
  injection Hprint as <-.
  assert (Hat : file_at (components (split_slash (trim_dot_slash (FilePath t))))
                  name root).
  { eapply insert_records_keeps_file; [|exact Hins| |done..].
    - constructor. intros k child Hk. by rewrite lookup_empty in Hk.
    - apply elem_of_map_to_list in Hid. by apply (list_elem_of_fmap_2 snd) in Hid. }
  destruct (components_nonempty _ _ Hlast Hname) as (k & keys & Hkeys).
  rewrite Hkeys in Hat.
  destruct (print_keys_file keys root k name EmptyString Hat) as (line & Hline & Hshown).
  exists line. split; [by apply list_elem_of_further | done].
Qed.

Lemma print_lists_every_file_witness :
  exists line,
    line ∈ ["."; "└── " +:+ bold +:+ "path" +:+ reset;
            "    └── " +:+ bold +:+ "to" +:+ reset;
            "        ├── [Qwe] " +:+ blue +:+ "file1.txt" +:+ reset;
            "        ├── [Qwe] " +:+ blue +:+ "file2.go" +:+ reset;
            "        └── [Qwe] " +:+ blue +:+ "file3.md" +:+ reset]
    /\ shown_as_file "file2.go" line.
Proof.
  apply (print_lists_every_file (registry_of three_records) _ "file2"
           {| FilePath := "/path/to/file2.go" |} "file2.go").
  - vm_compute. reflexivity.
  - vm_compute. reflexivity.
  - reflexivity.
  - discriminate.
Defined.

(** ** Commit messages in the table *)

Lemma truncateMsg_len (msg : string) :
  String.length (Display.truncateMsg msg) = Nat.min (String.length msg) 60.
Proof.
  unfold Display.truncateMsg, Display.MaxCommitMessageLen,
    Display.CommitMessageTruncLen.
  destruct (Nat.ltb_spec 60 (String.length msg)) as [Hlt|Hge]; [|lia].
  rewrite <- (bytes_length (_ +:+ _)), bytes_append, bytes_prefix.
  rewrite length_app, length_take, bytes_length.
  change (length (list_ascii_of_string "...")) with 3. lia.
Qed.

(** X21: a rendered commit message has the length of the message, capped at 60
    bytes: the table column never gets more than [MaxCommitMessageLen]
    bytes. *)
Theorem truncateMsg_length (msg : string) :
  String.length (Display.truncateMsg msg)
  = Nat.min (String.length msg) Display.MaxCommitMessageLen.
Proof. apply truncateMsg_len. Qed.

(** X22: rendering a rendered message changes nothing. *)
Theorem truncateMsg_idempotent (msg : string) :
  Display.truncateMsg (Display.truncateMsg msg) = Display.truncateMsg msg.
Proof.
  pose proof (truncateMsg_len msg) as Hlen.
  unfold Display.truncateMsg at 1.
  destruct (Nat.ltb_spec Display.MaxCommitMessageLen
              (String.length (Display.truncateMsg msg))) as [Hlt|_]; [|done].
  unfold Display.MaxCommitMessageLen in *. lia.
Qed.

(** ** Listing the tracked files *)

Section PrintTracked.
Context `{!Compressor, !Tracker.Json}.
Context {V : Type}.
Variable Hasher : string -> string.
Variable GetTracker : Result (gmap string V).
Variable Getwd : Result string.
Variable Lstat : string -> Result DirEntry.
Import Tracker.

(** X19: in a repository whose registry file is on the disk, the listing prints
    the tree of the registry that the file holds: the working tree is not
    scanned, and the disk is as before but for the registry file, which is
    packed again. *)
Theorem PrintTrackedFiles_present c plain tf w :
  files w !! registry_path = Some c -> gunzip c = Some plain ->
  registry_path ∉ locked w -> json_Unmarshal plain ∅ = Ok tf ->
  let r := PrintTrackedFiles Hasher GetTracker Getwd Lstat true w in
  r.2 = Print tf /\ files r.1 = <[registry_path := gz plain]> (files w).
Proof.
  intros Hc Hg Hl Hu. unfold PrintTrackedFiles. simpl.
  fold registry_path. unfold mbind, M_bind.
  rewrite loadOrScan_present by (by eexists).
  destruct (load_ok registry_path w c plain tf Hc Hg Hl Hu)
    as (w' & -> & Hfiles & _).
  by simpl.
Qed.


End PrintTracked.

Lemma PrintTrackedFiles_present_witness :
  let r := Tracker.PrintTrackedFiles sample_hasher (Ok sample_tracker)
             (Ok "/proj") (fun _ => Ok sample_tree) true saved in
  r.2 = Tracker.Print (registry_of three_records)
  /\ files r.1
     = <[registry_path := gz (RefJson.marshalIndent (registry_of three_records))]>
         (files saved).
Proof.
  apply (PrintTrackedFiles_present sample_hasher (Ok sample_tracker) (Ok "/proj")
           (fun _ => Ok sample_tree)
           (gz (RefJson.marshalIndent (registry_of three_records)))
           (RefJson.marshalIndent (registry_of three_records))
           (registry_of three_records) saved).
  - vm_compute. reflexivity.
  - reflexivity.
  - vm_compute. discriminate.
  - vm_compute. reflexivity.
Defined.


(** ** Package display: what the scan records *)

(** X15: every record the scan of package display returns is a record and not
    nil, stands under an identifier the tracker knows, and carries the
    figures of that tracker record: 0 commits and "-" for the message and
    the time when the record has no version, and otherwise the commit count
    and the message and time stamp of the last version. *)
Theorem display_scan_figures {V Ver : Type} (Hasher : string -> string)
    (tracker : gmap string V)
    (len_Versions : V -> nat) (CommitsCount : V -> Z) (LastVersion : V -> Ver)
    (CommitMessage TimeStamp : Ver -> string)
    (dir : string) (lstat : Result DirEntry) (tfd : DisplayScan.TrackFiles) :
  DisplayScan.findTrackedFilesInCurrDir Hasher (Ok tracker) len_Versions
    CommitsCount LastVersion CommitMessage TimeStamp dir lstat = Ok tfd ->
  forall id x,
    tfd !! id = Some x ->
    exists info t,
      tracker !! id = Some info /\ x = Some t
      /\ match len_Versions info with
         | 0 => DisplayScan.CommitCount t = 0%Z
                /\ DisplayScan.LastCommitMessage t = "-"
                /\ DisplayScan.LastCommitTime t = "-"
         | S _ => DisplayScan.CommitCount t = CommitsCount info
                  /\ DisplayScan.LastCommitMessage t = CommitMessage (LastVersion info)
                  /\ DisplayScan.LastCommitTime t = TimeStamp (LastVersion info)
         end.
Proof.
  set (P := fun s : DisplayScan.TrackFiles =>
    forall id x,
      s !! id = Some x ->
      exists info t,
        tracker !! id = Some info /\ x = Some t
        /\ match len_Versions info with
           | 0 => DisplayScan.CommitCount t = 0%Z
                  /\ DisplayScan.LastCommitMessage t = "-"
                  /\ DisplayScan.LastCommitTime t = "-"
           | S _ => DisplayScan.CommitCount t = CommitsCount info
                    /\ DisplayScan.LastCommitMessage t = CommitMessage (LastVersion info)
                    /\ DisplayScan.LastCommitTime t = TimeStamp (LastVersion info)
           end).
  unfold DisplayScan.findTrackedFilesInCurrDir, DisplayScan.scanCurrDir.
  destruct (WalkDir (DisplayScan.scanFn Hasher len_Versions CommitsCount LastVersion
                       CommitMessage TimeStamp tracker) dir lstat ∅)
    as [[s visits] r] eqn:Hwalk.
  intros Hres.
  assert (s = tfd) as -> by (destruct r; simpl in Hres; congruence).
  fold (P tfd).
  refine (WalkDir_calls _ (fun s _ s' => P s -> P s') _ _ _ _ _ _ _ _ _ Hwalk _).
  - done.
  - intros s0 s1 s2 _ _ H01 H12 H0. by apply H12, H01.
  - intros above path d err s0 _ H0. unfold DisplayScan.scanFn.
    destruct err as [e|]; [by destruct (os_IsPermission e)|].
    destruct d as [[name|name readErr dirs]|]; simpl; try done.
    2:{ by destruct (DisplayScan.isExcludedDir name). }
    destruct (tracker !! Hasher name) as [info|] eqn:Hknown; [|done].
    destruct (Nat.eqb_spec (len_Versions info) 0) as [Hzero|Hsome]; simpl;
      intros id x; (destruct (decide (Hasher name = id)) as [<-|Hne];
        [rewrite lookup_insert_eq; intros [= <-]
        |rewrite lookup_insert_ne by done; apply H0]).
    + eexists info, _. split; [done|]. split; [done|]. by rewrite Hzero.
    + eexists info, _. split; [done|]. split; [done|].
      by destruct (len_Versions info).
  - intros id x Hx. by rewrite lookup_empty in Hx.
Qed.

Lemma display_scan_figures_witness :
  exists info t,
    sample_log !! "#main.go" = Some info
    /\ Some (DisplayScan.mkTrackFile "/proj/src/main.go" 2 "second commit"
               "2025-01-02 10:00") = Some t
    /\ match length info with
       | 0 => DisplayScan.CommitCount t = 0%Z
              /\ DisplayScan.LastCommitMessage t = "-"
              /\ DisplayScan.LastCommitTime t = "-"
       | S _ => DisplayScan.CommitCount t = Z.of_nat (length info)
                /\ DisplayScan.LastCommitMessage t = fst (sample_last info)
                /\ DisplayScan.LastCommitTime t = snd (sample_last info)
       end.
Proof.
  apply (display_scan_figures sample_hasher sample_log length
           (fun info => Z.of_nat (length info)) sample_last fst snd
           "/proj" (Ok sample_tree)
           {[ "#README.md" := DisplayScan.NewTrackFile "/proj/README.md";
              "#main.go" := Some (DisplayScan.mkTrackFile "/proj/src/main.go" 2
                                    "second commit" "2025-01-02 10:00") ]}).
  - vm_compute. reflexivity.
  - vm_compute. reflexivity.
Defined.
